(** * Portfolio API: a shallow embedding of [main.py] and [schemas.py]

    The HTTP handlers of [main.py] are embedded as computations in a small
    state-and-exception monad over a model of the document store.  The
    pydantic models of [main.py] and [schemas.py] are records; their
    constructors are the validation functions.  The data-access module
    ([database.py]) is modelled from the specification. *)

From Stdlib Require Import ZArith Ascii String.
From stdpp Require Import base option list strings pretty gmap fin_maps.

Local Open Scope string_scope.
Local Open Scope list_scope.

(** ** Python values held in documents and request bodies *)

#[local] Set Warnings "-register-all".

Inductive value : Type :=
  | VNull
  | VBool (b : bool)
  | VStr (s : string)
  | VDate (t : Z)
  | VList (l : list value)
  | VDict (kv : list (string * value)).

(** A raw document / JSON object: a [dict] from field names to values. *)
Abbreviation fieldmap := (gmap string value).

(** [d.get(k)]: [None] when the key is absent. *)
Definition py_get (d : fieldmap) (k : string) : value :=
  default VNull (d !! k).

(** [d.get(k, dflt)]: the default only replaces an absent key. *)
Definition py_get_default (d : fieldmap) (k : string) (dflt : value) : value :=
  default dflt (d !! k).

(** ** Strings: slicing by code point

    A Python [str] is held as its UTF-8 encoding.  [s[:n]] keeps the first
    [n] code points, i.e. cuts before the [(n+1)]-th byte that is not a
    continuation byte [10xxxxxx]. *)

Definition is_continuation (c : ascii) : bool :=
  match c with
  | Ascii _ _ _ _ _ _ false true => true
  | _ => false
  end.

Fixpoint py_slice_to (n : nat) (s : string) : string :=
  match s with
  | EmptyString => EmptyString
  | String c rest =>
      if is_continuation c then String c (py_slice_to n rest)
      else match n with
           | O => EmptyString
           | S n' => String c (py_slice_to n' rest)
           end
  end.

(** Truthiness of a [str]: the empty string is falsy. *)
Definition str_truthy (s : string) : bool :=
  match s with
  | EmptyString => false
  | String _ _ => true
  end.

(** Truthiness of an [Optional[str]]: [None] and [""] are falsy. *)
Definition opt_str_truthy (o : option string) : bool :=
  match o with
  | None => false
  | Some s => str_truthy s
  end.


(** ** Field validators of the pydantic models

    Each returns [None] where pydantic reports a validation error. *)

Definition as_str (v : value) : option string :=
  match v with VStr s => Some s | _ => None end.

Definition as_opt_str (v : value) : option (option string) :=
  match v with
  | VNull => Some None
  | VStr s => Some (Some s)
  | _ => None
  end.

(** ASCII lower case, byte by byte. *)
Definition ascii_lower (c : ascii) : ascii :=
  let n := nat_of_ascii c in
  if Nat.leb 65 n && Nat.leb n 90 then ascii_of_nat (n + 32) else c.

Fixpoint str_lower (s : string) : string :=
  match s with
  | EmptyString => EmptyString
  | String c rest => String (ascii_lower c) (str_lower rest)
  end.

(** The strings pydantic reads as a [bool], compared in lower case. *)
Definition bool_true_strings : list string :=
  ["1"; "on"; "t"; "true"; "y"; "yes"].

Definition bool_false_strings : list string :=
  ["0"; "off"; "f"; "false"; "n"; "no"].

(** A [bool] field takes a boolean, or one of the strings above. *)
Definition as_bool (v : value) : option bool :=
  match v with
  | VBool b => Some b
  | VStr s =>
      if bool_decide (str_lower s ∈ bool_true_strings) then Some true
      else if bool_decide (str_lower s ∈ bool_false_strings) then Some false
      else None
  | _ => None
  end.

(** An [Optional[datetime]] field takes null, a date-time, or a string
    that pydantic can parse into one (ISO 8601 text, or a number read as
    Unix time).  The parser is a parameter
    [parse_datetime : string -> option Z] of the post models. *)
Definition as_opt_datetime (parse_datetime : string -> option Z) (v : value)
    : option (option Z) :=
  match v with
  | VNull => Some None
  | VDate t => Some (Some t)
  | VStr s => Some <$> parse_datetime s
  | _ => None
  end.

Definition as_str_list (v : value) : option (list string) :=
  match v with
  | VList l => mapM as_str l
  | _ => None
  end.

(** [EmailStr] delegates to the [email-validator] package, which either
    rejects a string or returns the normalised address.  The package is
    taken as a parameter [validate_email : string -> option string] of
    the models that have an [EmailStr] field. *)

(** ** Response and request models of [main.py] *)

Record ProjectResponse := {
  pr_title : string;
  pr_slug : string;
  pr_description : string;
  pr_tags : list string;
  pr_stack : list string;
  pr_impact : option string;
  pr_cover_url : option string;
  pr_github_url : option string;
  pr_demo_url : option string;
  pr_featured : bool
}.

Record PostResponse := {
  po_title : string;
  po_slug : string;
  po_excerpt : option string;
  po_content : string;
  po_tags : list string;
  po_published_at : option Z
}.

Record ContactRequest := {
  cr_name : string;
  cr_email : string;
  cr_message : string
}.

(** ** Stored models of [schemas.py] *)

Record Stat := { st_label : string; st_value : string }.

Record Project := {
  p_title : string;
  p_slug : string;
  p_description : string;
  p_tags : list string;
  p_stack : list string;
  p_impact : option string;
  p_cover_url : option string;
  p_github_url : option string;
  p_demo_url : option string;
  p_case_study : option string;
  p_stats : list Stat;
  p_featured : bool
}.

Record Post := {
  b_title : string;
  b_slug : string;
  b_excerpt : option string;
  b_content : string;
  b_tags : list string;
  b_published_at : option Z
}.

Record ContactMessage := {
  cm_name : string;
  cm_email : string;
  cm_message : string
}.

(** The field map of a model instance (what [.dict()] returns). *)

Definition of_opt_str (o : option string) : value :=
  match o with None => VNull | Some s => VStr s end.

Definition of_opt_datetime (o : option Z) : value :=
  match o with None => VNull | Some t => VDate t end.

Definition of_str_list (l : list string) : value := VList (VStr <$> l).

Definition Stat_dict (s : Stat) : value :=
  VDict [("label", VStr (st_label s)); ("value", VStr (st_value s))].

Definition Project_dict (p : Project) : fieldmap :=
  list_to_map [
    ("title", VStr (p_title p));
    ("slug", VStr (p_slug p));
    ("description", VStr (p_description p));
    ("tags", of_str_list (p_tags p));
    ("stack", of_str_list (p_stack p));
    ("impact", of_opt_str (p_impact p));
    ("cover_url", of_opt_str (p_cover_url p));
    ("github_url", of_opt_str (p_github_url p));
    ("demo_url", of_opt_str (p_demo_url p));
    ("case_study", of_opt_str (p_case_study p));
    ("stats", VList (Stat_dict <$> p_stats p));
    ("featured", VBool (p_featured p))
  ].

Definition Post_dict (b : Post) : fieldmap :=
  list_to_map [
    ("title", VStr (b_title b));
    ("slug", VStr (b_slug b));
    ("excerpt", of_opt_str (b_excerpt b));
    ("content", VStr (b_content b));
    ("tags", of_str_list (b_tags b));
    ("published_at", of_opt_datetime (b_published_at b))
  ].

Definition ContactMessage_dict (m : ContactMessage) : fieldmap :=
  list_to_map [
    ("name", VStr (cm_name m));
    ("email", VStr (cm_email m));
    ("message", VStr (cm_message m))
  ].

Definition ContactRequest_dict (r : ContactRequest) : fieldmap :=
  list_to_map [
    ("name", VStr (cr_name r));
    ("email", VStr (cr_email r));
    ("message", VStr (cr_message r))
  ].

(** ** Exceptions and results *)

Inductive exn : Type :=
  | HTTPException (status_code : nat) (detail : string)
  | ValidationError (model : string)
  | DatabaseNotAvailable
  | DriverError (msg : string).

Inductive result (A : Type) : Type :=
  | Ok (a : A)
  | Raise (e : exn).
Arguments Ok {A} a.
Arguments Raise {A} e.

(** [str(e)].  Driver exceptions print their message; an [HTTPException]
    prints as [status: detail]. *)
Definition exn_str (e : exn) : string :=
  match e with
  | HTTPException c d => pretty c +:+ ": " +:+ d
  | ValidationError m => "validation error for " +:+ m
  | DatabaseNotAvailable => "Database not available"
  | DriverError msg => msg
  end.

(** ** The document store *)

(** A stored document: the identifier the store assigned and the fields. *)
Record Doc := { doc_id : nat; doc_fields : fieldmap }.

(** Reading an attribute of a Python object: it may be missing
    ([hasattr] is false), have a value, or raise while being computed. *)
Inductive attr (A : Type) : Type :=
  | AttrMissing
  | AttrValue (a : A)
  | AttrRaises (msg : string).
Arguments AttrMissing {A}.
Arguments AttrValue {A} a.
Arguments AttrRaises {A} msg.

(** The database object behind a non-[None] handle.  [outage = Some msg]
    is a store that cannot be reached: every round trip raises an
    exception with text [msg]. *)
Record Store := {
  colls : gmap string (list Doc);
  next_id : nat;
  db_name : attr string;
  outage : option string
}.

Definition coll_docs (st : Store) (c : string) : list Doc :=
  default [] (colls st !! c).

(** Operations the store has carried out, oldest first (ghost state used
    to state which queries and writes a handler performs). *)
Inductive StoreOp : Type :=
  | OpCount (c : string)
  | OpInsert (c : string) (fields : fieldmap)
  | OpFind (c : string) (filt : gmap string string) (limit : option nat)
  | OpListCollections.

(** The state a handler runs in: the module-level handle [db] ([None]
    when the store was never initialised), the environment variable
    [DATABASE_URL], the clock, and the trace of store operations. *)
Record World := {
  db : option Store;
  env_DATABASE_URL : option string;
  utcnow : Z;
  trace : list StoreOp
}.

Definition set_db (w : World) (st : Store) : World :=
  {| db := Some st; env_DATABASE_URL := env_DATABASE_URL w;
     utcnow := utcnow w; trace := trace w |}.

Definition log_op (o : StoreOp) (w : World) : World :=
  {| db := db w; env_DATABASE_URL := env_DATABASE_URL w;
     utcnow := utcnow w; trace := trace w ++ [o] |}.

(** ** The handler monad: state passing with exceptions

    A raised exception keeps the state reached so far, as in Python. *)

Definition SE (S A : Type) : Type := S -> result A * S.

Definition M : Type -> Type := SE World.

Definition ret {S A} (a : A) : SE S A := fun s => (Ok a, s).

Definition raise {S A} (e : exn) : SE S A := fun s => (Raise e, s).

Definition bind {S A B} (m : SE S A) (k : A -> SE S B) : SE S B :=
  fun s =>
    match m s with
    | (Ok a, s') => k a s'
    | (Raise e, s') => (Raise e, s')
    end.

(** [try: m except Exception as e: h e] *)
Definition try_except {S A} (m : SE S A) (h : exn -> SE S A) : SE S A :=
  fun s =>
    match m s with
    | (Ok a, s') => (Ok a, s')
    | (Raise e, s') => h e s'
    end.

Definition lift {S A} (r : result A) : SE S A := fun s => (r, s).

Declare Scope handler_scope.
Delimit Scope handler_scope with handler.
Notation "x <- m ;; k" := (bind m (fun x => k))
  (at level 100, m at next level, right associativity) : handler_scope.
Notation "m ;;; k" := (bind m (fun _ => k))
  (at level 100, right associativity) : handler_scope.
Local Open Scope handler_scope.

(** [for x in xs: body x] *)
Fixpoint for_each {S A} (xs : list A) (body : A -> SE S unit) : SE S unit :=
  match xs with
  | [] => ret tt
  | x :: rest => body x ;;; for_each rest body
  end.

(** [[f x for x in xs]] *)
Fixpoint comprehension {S A B} (xs : list A) (f : A -> SE S B) : SE S (list B) :=
  match xs with
  | [] => ret []
  | x :: rest =>
      y <- f x ;;
      ys <- comprehension rest f ;;
      ret (y :: ys)
  end.

Definition get_db : M (option Store) := fun w => (Ok (db w), w).

Definition get_utcnow : M Z := fun w => (Ok (utcnow w), w).

(** ** Driver operations on the handle *)

(** Does a stored value satisfy the equality condition [{k: x}]?  A scalar
    must equal [x]; an array must have [x] among its elements. *)
Definition is_str (x : string) (v : value) : bool :=
  match v with
  | VStr s => bool_decide (s = x)
  | _ => false
  end.

Definition field_matches (x : string) (v : option value) : bool :=
  match v with
  | Some (VStr s) => bool_decide (s = x)
  | Some (VList l) => existsb (is_str x) l
  | _ => false
  end.

Definition doc_matches (filt : gmap string string) (d : fieldmap) : bool :=
  forallb (fun kx => field_matches kx.2 (d !! kx.1)) (map_to_list filt).

Definition cap {A} (limit : option nat) (l : list A) : list A :=
  match limit with
  | None => l
  | Some n => take n l
  end.

(** The identifier in string form: 24 hexadecimal digits. *)
Definition hex_digit (n : nat) : ascii :=
  match n with
  | 0 => "0" | 1 => "1" | 2 => "2" | 3 => "3" | 4 => "4" | 5 => "5"
  | 6 => "6" | 7 => "7" | 8 => "8" | 9 => "9" | 10 => "a" | 11 => "b"
  | 12 => "c" | 13 => "d" | 14 => "e" | _ => "f"
  end%char.

Fixpoint hex_fixed (width : nat) (n : nat) (acc : string) : string :=
  match width with
  | O => acc
  | S w => hex_fixed w (n / 16) (String (hex_digit (n mod 16)) acc)
  end.

Definition id_str (n : nat) : string := hex_fixed 24 n "".

(** Inserting stores the fields under the next free identifier. *)
Definition store_insert (st : Store) (c : string) (fields : fieldmap) : Store :=
  {| colls := <[c := coll_docs st c ++ [{| doc_id := next_id st; doc_fields := fields |}]]> (colls st);
     next_id := S (next_id st);
     db_name := db_name st;
     outage := outage st |}.

(** [db[c].count_documents({})] *)
Definition count_documents (c : string) : M nat :=
  fun w =>
    match db w with
    | None => (Raise (DriverError "'NoneType' object has no attribute"), w)
    | Some st =>
        match outage st with
        | Some msg => (Raise (DriverError msg), w)
        | None => (Ok (length (coll_docs st c)), log_op (OpCount c) w)
        end
    end.

(** [db.list_collection_names()] *)
Definition list_collection_names : M (list string) :=
  fun w =>
    match db w with
    | None => (Raise (DriverError "'NoneType' object has no attribute"), w)
    | Some st =>
        match outage st with
        | Some msg => (Raise (DriverError msg), w)
        | None => (Ok (map_to_list (colls st)).*1, log_op OpListCollections w)
        end
    end.

(** ** Data-access layer ([database.py]) *)

(** Modelled from the spec: [create_document] of [database.py], which is
    not among the sources.  It inserts the record's field map into the
    named collection and returns the newly assigned identifier as a
    string; it fails when the handle was never initialised or the store
    cannot be reached. *)
Definition create_document (c : string) (fields : fieldmap) : M string :=
  fun w =>
    match db w with
    | None => (Raise DatabaseNotAvailable, w)
    | Some st =>
        match outage st with
        | Some msg => (Raise (DriverError msg), w)
        | None =>
            (Ok (id_str (next_id st)),
             log_op (OpInsert c fields) (set_db w (store_insert st c fields)))
        end
    end.

(** Modelled from the spec: [get_documents] of [database.py], which is
    not among the sources.  It returns the raw field maps of the named
    collection that match the filter (the empty filter matches every
    record), in the store's order, capped to [limit] records when a
    limit is given. *)
Definition get_documents (c : string) (filt : gmap string string)
    (limit : option nat) : M (list fieldmap) :=
  fun w =>
    match db w with
    | None => (Raise DatabaseNotAvailable, w)
    | Some st =>
        match outage st with
        | Some msg => (Raise (DriverError msg), w)
        | None =>
            (Ok (cap limit
                   (List.filter (doc_matches filt) (doc_fields <$> coll_docs st c))),
             log_op (OpFind c filt limit) w)
        end
    end.

(** ** Model constructors (validation) *)

Definition validated {A} (model : string) (o : option A) : result A :=
  match o with
  | Some a => Ok a
  | None => Raise (ValidationError model)
  end.

Definition ProjectResponse_new
    (title slug description tags stack impact cover_url github_url demo_url
       featured : value) : result ProjectResponse :=
  validated "ProjectResponse"
    (t ← as_str title;
     s ← as_str slug;
     d ← as_str description;
     tg ← as_str_list tags;
     sk ← as_str_list stack;
     im ← as_opt_str impact;
     cv ← as_opt_str cover_url;
     gh ← as_opt_str github_url;
     dm ← as_opt_str demo_url;
     ft ← as_bool featured;
     Some {| pr_title := t; pr_slug := s; pr_description := d;
             pr_tags := tg; pr_stack := sk; pr_impact := im;
             pr_cover_url := cv; pr_github_url := gh; pr_demo_url := dm;
             pr_featured := ft |}).

Definition PostResponse_new (parse_datetime : string -> option Z)
    (title slug excerpt content tags published_at : value)
    : result PostResponse :=
  validated "PostResponse"
    (t ← as_str title;
     s ← as_str slug;
     ex ← as_opt_str excerpt;
     ct ← as_str content;
     tg ← as_str_list tags;
     pa ← as_opt_datetime parse_datetime published_at;
     Some {| po_title := t; po_slug := s; po_excerpt := ex;
             po_content := ct; po_tags := tg; po_published_at := pa |}).

(** A required [str] field: an absent key is a validation error. *)
Definition required_str (kw : fieldmap) (k : string) : option string :=
  match kw !! k with
  | Some v => as_str v
  | None => None
  end.

Definition ContactRequest_new (validate_email : string -> option string)
    (kw : fieldmap) : result ContactRequest :=
  validated "ContactRequest"
    (n ← required_str kw "name";
     raw ← required_str kw "email";
     e ← validate_email raw;
     m ← required_str kw "message";
     Some {| cr_name := n; cr_email := e; cr_message := m |}).

Definition ContactMessage_new (validate_email : string -> option string)
    (kw : fieldmap) : result ContactMessage :=
  validated "ContactMessage"
    (n ← required_str kw "name";
     raw ← required_str kw "email";
     e ← validate_email raw;
     m ← required_str kw "message";
     Some {| cm_name := n; cm_email := e; cm_message := m |}).

(** ** Seed helper *)

Definition project_examples : list Project := [
  {| p_title := "Real-time Vector Search Service";
     p_slug := "vector-search";
     p_description := "Low-latency vector DB layer with HNSW + PQ, tuned for p95 < 20ms.";
     p_tags := ["AI"; "Infra"];
     p_stack := ["Rust"; "gRPC"; "ANN"; "Redis"; "Docker"];
     p_impact := Some "p95 latency ↓ 38% at 10k QPS";
     p_cover_url := Some "/covers/vector.jpg";
     p_github_url := Some "https://github.com/example/vector-search";
     p_demo_url := None;
     p_case_study := None;
     p_stats := [];
     p_featured := true |};
  {| p_title := "LLM-Assisted Code Review Bot";
     p_slug := "code-review-bot";
     p_description := "Context-aware PR reviewer with inline suggestions and risk flags.";
     p_tags := ["AI"; "Open Source"; "Web"];
     p_stack := ["Python"; "FastAPI"; "OpenAI"; "Postgres"];
     p_impact := Some "review time ↓ 45% across 120+ PRs";
     p_cover_url := Some "/covers/bot.jpg";
     p_github_url := Some "https://github.com/example/code-review-bot";
     p_demo_url := None;
     p_case_study := None;
     p_stats := [];
     p_featured := false |};
  {| p_title := "Telemetry Pipeline for Edge Devices";
     p_slug := "edge-telemetry";
     p_description := "Exactly-once ingestion with Kafka + Flink; real-time dashboards.";
     p_tags := ["Infra"; "Data"];
     p_stack := ["Kafka"; "Flink"; "Debezium"; "ClickHouse"];
     p_impact := Some "throughput ↑ 3.2x, data loss ~0%";
     p_cover_url := Some "/covers/telemetry.jpg";
     p_github_url := None;
     p_demo_url := None;
     p_case_study := None;
     p_stats := [];
     p_featured := false |}
].

Definition post_examples (now : Z) : list Post := [
  {| b_title := "Notes on low-latency systems";
     b_slug := "low-latency-notes";
     b_excerpt := Some "What actually moves p95 and p99 in real systems.";
     b_content := "# Low-latency notes" +:+ String "010"%char
                    "A practical list of levers that matter.";
     b_tags := ["systems"; "perf"];
     b_published_at := Some now |}
].

Definition ensure_seed_data : M unit :=
  handle <- get_db ;;
  match handle with
  | None => ret tt
  | Some _ =>
      n <- count_documents "project" ;;
      (if Nat.eqb n 0
       then for_each project_examples
              (fun p => _ <- create_document "project" (Project_dict p) ;; ret tt)
       else ret tt) ;;;
      m <- count_documents "post" ;;
      if Nat.eqb m 0
      then now <- get_utcnow ;;
           for_each (post_examples now)
             (fun post => _ <- create_document "post" (Post_dict post) ;; ret tt)
      else ret tt
  end.

(** ** Project endpoints *)

(** [{"tags": tag} if tag else {}] *)
Definition tag_filter (tag : option string) : gmap string string :=
  if opt_str_truthy tag then {[ "tags" := default "" tag ]} else ∅.

(** The [ProjectResponse] construction shared by both project handlers. *)
Definition project_response (p : fieldmap) : result ProjectResponse :=
  ProjectResponse_new
    (py_get p "title")
    (py_get p "slug")
    (py_get p "description")
    (py_get_default p "tags" (VList []))
    (py_get_default p "stack" (VList []))
    (py_get p "impact")
    (py_get p "cover_url")
    (py_get p "github_url")
    (py_get p "demo_url")
    (py_get_default p "featured" (VBool false)).

Definition list_projects (tag : option string) : M (list ProjectResponse) :=
  ensure_seed_data ;;;
  projects <- get_documents "project" (tag_filter tag) None ;;
  comprehension projects (fun p => lift (project_response p)).

Definition get_project (slug : string) : M ProjectResponse :=
  ensure_seed_data ;;;
  projects <- get_documents "project" {[ "slug" := slug ]} (Some 1) ;;
  match projects with
  | [] => raise (HTTPException 404 "Project not found")
  | p :: _ => lift (project_response p)
  end.

(** ** Blog endpoints *)

(** The [PostResponse] construction shared by both post handlers. *)
Definition post_response (parse_datetime : string -> option Z)
    (po : fieldmap) : result PostResponse :=
  PostResponse_new parse_datetime
    (py_get po "title")
    (py_get po "slug")
    (py_get po "excerpt")
    (py_get po "content")
    (py_get_default po "tags" (VList []))
    (py_get po "published_at").

Definition list_posts (parse_datetime : string -> option Z)
    (tag : option string) : M (list PostResponse) :=
  ensure_seed_data ;;;
  posts <- get_documents "post" (tag_filter tag) None ;;
  comprehension posts (fun po => lift (post_response parse_datetime po)).

Definition get_post (parse_datetime : string -> option Z)
    (slug : string) : M PostResponse :=
  ensure_seed_data ;;;
  posts <- get_documents "post" {[ "slug" := slug ]} (Some 1) ;;
  match posts with
  | [] => raise (HTTPException 404 "Post not found")
  | po :: _ => lift (post_response parse_datetime po)
  end.

(** ** Contact endpoint *)

Record ContactReply := { reply_status : string; reply_id : string }.

Definition submit_contact (validate_email : string -> option string)
    (payload : ContactRequest) : M ContactReply :=
  doc <- lift (ContactMessage_new validate_email (ContactRequest_dict payload)) ;;
  msg_id <- create_document "contactmessage" (ContactMessage_dict doc) ;;
  ret {| reply_status := "ok"; reply_id := msg_id |}.

(** ** Diagnostics endpoint *)

Record TestResponse := {
  backend : string;
  database : string;
  database_url : option string;
  database_name : option string;
  connection_status : string;
  collections : list string
}.

Definition initial_response : TestResponse :=
  {| backend := "✅ Running";
     database := "❌ Not Available";
     database_url := None;
     database_name := None;
     connection_status := "Not Connected";
     collections := [] |}.

Definition set_database (v : string) (r : TestResponse) : TestResponse :=
  {| backend := backend r; database := v; database_url := database_url r;
     database_name := database_name r;
     connection_status := connection_status r; collections := collections r |}.

Definition set_database_url (v : option string) (r : TestResponse) : TestResponse :=
  {| backend := backend r; database := database r; database_url := v;
     database_name := database_name r;
     connection_status := connection_status r; collections := collections r |}.

Definition set_database_name (v : option string) (r : TestResponse) : TestResponse :=
  {| backend := backend r; database := database r; database_url := database_url r;
     database_name := v;
     connection_status := connection_status r; collections := collections r |}.

Definition set_connection_status (v : string) (r : TestResponse) : TestResponse :=
  {| backend := backend r; database := database r; database_url := database_url r;
     database_name := database_name r;
     connection_status := v; collections := collections r |}.

Definition set_collections (v : list string) (r : TestResponse) : TestResponse :=
  {| backend := backend r; database := database r; database_url := database_url r;
     database_name := database_name r;
     connection_status := connection_status r; collections := v |}.

(** The handler mutates its local [response] dict step by step, so the
    dict is state next to the world: an exception keeps the assignments
    made before it. *)
Definition T : Type -> Type := SE (TestResponse * World).

(** [response[k] = v] *)
Definition assign (f : TestResponse -> TestResponse) : T unit :=
  fun s => (Ok tt, (f s.1, s.2)).

Definition in_world {A} (m : M A) : T A :=
  fun s => let (x, w') := m s.2 in (x, (s.1, w')).

Definition getenv_DATABASE_URL : M (option string) :=
  fun w => (Ok (env_DATABASE_URL w), w).

(** [db.name if hasattr(db, 'name') else "✅ Connected"] *)
Definition name_or_connected (st : Store) : result string :=
  match db_name st with
  | AttrMissing => Ok "✅ Connected"
  | AttrValue n => Ok n
  | AttrRaises msg => Raise (DriverError msg)
  end.

Definition test_database_try : T unit :=
  try_except
    (handle <- in_world get_db ;;
     match handle with
     | Some st =>
         assign (set_database "✅ Available") ;;;
         url <- in_world getenv_DATABASE_URL ;;
         assign (set_database_url
                   (Some (if opt_str_truthy url then "✅ Set" else "❌ Not Set"))) ;;;
         name <- lift (name_or_connected st) ;;
         assign (set_database_name (Some name)) ;;;
         assign (set_connection_status "Connected") ;;;
         try_except
           (names <- in_world list_collection_names ;;
            assign (set_collections (take 10 names)) ;;;
            assign (set_database "✅ Connected & Working"))
           (fun e =>
              assign (set_database
                        ("⚠️ Connected but Error: " +:+ py_slice_to 80 (exn_str e))))
     | None => assign (set_database "⚠️ Available but not initialized")
     end)
    (fun e => assign (set_database ("❌ Error: " +:+ py_slice_to 80 (exn_str e)))).

Definition test_database : M TestResponse :=
  fun w =>
    match test_database_try (initial_response, w) with
    | (Ok _, (response, w')) => (Ok response, w')
    | (Raise e, (_, w')) => (Raise e, w')
    end.

(** ** The framework around a handler

    FastAPI validates the request body against the handler's parameter
    model before calling the handler, answers 422 when that fails, turns
    an [HTTPException] into a response with its status and detail, and
    any other exception into a 500. *)

Inductive HttpResponse (A : Type) : Type :=
  | Http200 (body : A)
  | HttpError (status_code : nat) (detail : string)
  | Http422 (model : string)
  | Http500.
Arguments Http200 {A} body.
Arguments HttpError {A} status_code detail.
Arguments Http422 {A} model.
Arguments Http500 {A}.

Definition status_of {A} (r : HttpResponse A) : nat :=
  match r with
  | Http200 _ => 200
  | HttpError c _ => c
  | Http422 _ => 422
  | Http500 => 500
  end.

Definition respond {A} (r : result A) : HttpResponse A :=
  match r with
  | Ok a => Http200 a
  | Raise (HTTPException c d) => HttpError c d
  | Raise _ => Http500
  end.

Definition serve {A} (m : M A) (w : World) : HttpResponse A * World :=
  let (r, w') := m w in (respond r, w').

Definition GET_test : World -> HttpResponse TestResponse * World :=
  serve test_database.

Definition GET_api_projects (tag : option string) :
    World -> HttpResponse (list ProjectResponse) * World :=
  serve (list_projects tag).

Definition GET_api_project (slug : string) :
    World -> HttpResponse ProjectResponse * World :=
  serve (get_project slug).

Definition GET_api_posts (parse_datetime : string -> option Z) (tag : option string) :
    World -> HttpResponse (list PostResponse) * World :=
  serve (list_posts parse_datetime tag).

Definition GET_api_post (parse_datetime : string -> option Z) (slug : string) :
    World -> HttpResponse PostResponse * World :=
  serve (get_post parse_datetime slug).

Definition POST_api_contact (validate_email : string -> option string)
    (body : fieldmap) (w : World) : HttpResponse ContactReply * World :=
  match ContactRequest_new validate_email body with
  | Ok payload => serve (submit_contact validate_email payload) w
  | Raise _ => (Http422 "ContactRequest", w)
  end.

(** A stand-in for the date-time parser, used in the examples only, none
    of which stores a date as a string. *)
Definition sample_parse_datetime (s : string) : option Z := None.

(** ** Vocabulary of the statements *)

(** The handle is initialised and the store behind it can be reached. *)
Definition available (w : World) (st : Store) : Prop :=
  db w = Some st /\ outage st = None.

(** The world after the store moved to [st] and carried out [ops]. *)
Definition advance (w : World) (st : Store) (ops : list StoreOp) : World :=
  {| db := Some st; env_DATABASE_URL := env_DATABASE_URL w;
     utcnow := utcnow w; trace := trace w ++ ops |}.

Definition insert_all (st : Store) (c : string) (l : list fieldmap) : Store :=
  foldl (fun s f => store_insert s c f) st l.

(** The documents of a collection as a handler sees them. *)
Definition records (st : Store) (c : string) : list fieldmap :=
  doc_fields <$> coll_docs st c.

(** The field maps written into collection [c] by a run of operations. *)
Definition inserts_into (c : string) (ops : list StoreOp) : list fieldmap :=
  omap (fun o => match o with
                 | OpInsert c' f => if bool_decide (c' = c) then Some f else None
                 | _ => None
                 end) ops.

Definition is_count (o : StoreOp) : bool :=
  match o with OpCount _ => true | _ => false end.

Definition is_insert (o : StoreOp) : bool :=
  match o with OpInsert _ _ => true | _ => false end.

(** The fixed example sets. *)
Definition seed_projects : list fieldmap := Project_dict <$> project_examples.

Definition seed_posts (now : Z) : list fieldmap := Post_dict <$> post_examples now.

Definition is_empty (st : Store) (c : string) : bool :=
  Nat.eqb (length (coll_docs st c)) 0.

(** What the seed check leaves behind on a reachable store. *)
Definition seeded_store (st : Store) (now : Z) : Store :=
  let st1 := if is_empty st "project"
             then insert_all st "project" seed_projects else st in
  if is_empty st1 "post" then insert_all st1 "post" (seed_posts now) else st1.

Definition seed_ops (st : Store) (now : Z) : list StoreOp :=
  [OpCount "project"]
    ++ (if is_empty st "project" then OpInsert "project" <$> seed_projects else [])
    ++ [OpCount "post"]
    ++ (if is_empty st "post" then OpInsert "post" <$> seed_posts now else []).

(** No record of [l] satisfies the query [q]. *)
Definition no_match (q : gmap string string) (l : list fieldmap) : Prop :=
  Forall (fun d => doc_matches q d = false) l.

(** The record's tag list has [X] among its members. *)
Definition has_tag (X : string) (d : fieldmap) : bool :=
  match d !! "tags" with
  | Some (VList l) => existsb (is_str X) l
  | _ => false
  end.

(** The record can be shaped into a [ProjectResponse]. *)
Definition normalizable (d : fieldmap) : Prop :=
  exists r, project_response d = Ok r.

(** The records a tag selects: all of them when no tag is given. *)
Definition selected (tag : option string) (stored : list fieldmap) : list fieldmap :=
  match tag with
  | Some X => List.filter (has_tag X) stored
  | None => stored
  end.

(** [GET /api/projects] with query [tag] answers with exactly the stored
    project records that [tag] selects, each in response shape, in the
    store's order. *)
Definition lists_exactly (tag : option string) (w : World) (st : Store) : Prop :=
  exists rs,
    (GET_api_projects tag w).1 = Http200 rs
    /\ Forall2 (fun d r => project_response d = Ok r)
         (selected tag (records (seeded_store st (utcnow w)) "project")) rs.

(** A list comprehension whose body is a pure constructor call. *)
Fixpoint collect {A B} (f : A -> result B) (l : list A) : result (list B) :=
  match l with
  | [] => Ok []
  | x :: rest =>
      match f x with
      | Ok y =>
          match collect f rest with
          | Ok ys => Ok (y :: ys)
          | Raise e => Raise e
          end
      | Raise e => Raise e
      end
  end.

(** The response shape of a schema-valid project. *)
Definition response_of_project (q : Project) : ProjectResponse :=
  {| pr_title := p_title q; pr_slug := p_slug q;
     pr_description := p_description q;
     pr_tags := p_tags q; pr_stack := p_stack q; pr_impact := p_impact q;
     pr_cover_url := p_cover_url q; pr_github_url := p_github_url q;
     pr_demo_url := p_demo_url q; pr_featured := p_featured q |}.

Definition with_featured (b : bool) (r : ProjectResponse) : ProjectResponse :=
  {| pr_title := pr_title r; pr_slug := pr_slug r;
     pr_description := pr_description r;
     pr_tags := pr_tags r; pr_stack := pr_stack r; pr_impact := pr_impact r;
     pr_cover_url := pr_cover_url r; pr_github_url := pr_github_url r;
     pr_demo_url := pr_demo_url r; pr_featured := b |}.

Definition with_tags (l : list string) (r : ProjectResponse) : ProjectResponse :=
  {| pr_title := pr_title r; pr_slug := pr_slug r;
     pr_description := pr_description r;
     pr_tags := l; pr_stack := pr_stack r; pr_impact := pr_impact r;
     pr_cover_url := pr_cover_url r; pr_github_url := pr_github_url r;
     pr_demo_url := pr_demo_url r; pr_featured := pr_featured r |}.

Definition with_stack (l : list string) (r : ProjectResponse) : ProjectResponse :=
  {| pr_title := pr_title r; pr_slug := pr_slug r;
     pr_description := pr_description r;
     pr_tags := pr_tags r; pr_stack := l; pr_impact := pr_impact r;
     pr_cover_url := pr_cover_url r; pr_github_url := pr_github_url r;
     pr_demo_url := pr_demo_url r; pr_featured := pr_featured r |}.

(** A stored project record lacking the three defaulted fields. *)
Definition sparse_project : fieldmap :=
  list_to_map [
    ("title", VStr "Telemetry Pipeline for Edge Devices");
    ("slug", VStr "edge-telemetry");
    ("description", VStr "Exactly-once ingestion with Kafka + Flink; real-time dashboards.")
  ].

(** ** Sample states *)

Definition empty_store : Store :=
  {| colls := ∅; next_id := 0; db_name := AttrValue "portfolio"; outage := None |}.

Definition fresh_world : World :=
  {| db := Some empty_store; env_DATABASE_URL := Some "mongodb://localhost:27017";
     utcnow := 1700000000; trace := [] |}.

Definition uninitialised_world : World :=
  {| db := None; env_DATABASE_URL := None; utcnow := 1700000000; trace := [] |}.

Definition sparse_store : Store :=
  store_insert empty_store "project" sparse_project.

Definition sparse_world : World :=
  {| db := Some sparse_store; env_DATABASE_URL := None;
     utcnow := 1700000000; trace := [] |}.

(** The documents of a collection seen through the handle. *)
Definition world_docs (w : World) (c : string) : list Doc :=
  match db w with
  | Some st => coll_docs st c
  | None => []
  end.

(** Identifiers in use are below the next one the store will assign. *)
Definition store_wf (st : Store) : Prop :=
  forall c d, d ∈ coll_docs st c -> doc_id d < next_id st.

(** The [email] field of a body is absent, not a string, or a string the
    validator rejects. *)
Definition email_rejected (validate_email : string -> option string)
    (body : fieldmap) : Prop :=
  match body !! "email" with
  | Some (VStr e) => validate_email e = None
  | _ => True
  end.

Definition field_missing (body : fieldmap) : Prop :=
  body !! "name" = None \/ body !! "email" = None \/ body !! "message" = None.

(** A stand-in for the address check, used in the examples only: an
    address is accepted unchanged when it has an [@]. *)
Definition sample_validate_email (s : string) : option string :=
  if existsb (Ascii.eqb "@"%char) (list_ascii_of_string s) then Some s else None.

Definition bad_email_body : fieldmap :=
  list_to_map [("name", VStr "Jane"); ("email", VStr "not-an-email");
               ("message", VStr "hi")].

Definition jane_body : fieldmap :=
  list_to_map [("name", VStr "Jane"); ("email", VStr "jane@example.com");
               ("message", VStr "hi")].

(** The store is initialised, reachable, and its [name] can be read. *)
Definition healthy (w : World) : bool :=
  match db w with
  | Some st =>
      match db_name st, outage st with
      | AttrRaises _, _ => false
      | _, Some _ => false
      | _, None => true
      end
  | None => false
  end.

(** The text starts with one of the two marks the handler uses for a
    problem. *)
Definition error_indicator (s : string) : bool :=
  String.prefix "⚠️" s || String.prefix "❌" s.

Definition unreachable_world : World :=
  {| db := Some {| colls := ∅; next_id := 0; db_name := AttrValue "portfolio";
                   outage := Some "localhost:27017: [Errno 111] Connection refused" |};
     env_DATABASE_URL := Some "mongodb://localhost:27017";
     utcnow := 1700000000; trace := [] |}.

(** The store behind the handle once the seed check has run: seeded on
    a reachable store, untouched otherwise. *)
Definition after_seed_db (w : World) : option Store :=
  match db w with
  | Some st =>
      match outage st with
      | None => Some (seeded_store st (utcnow w))
      | Some _ => Some st
      end
  | None => None
  end.

(** What the four read handlers have in common: on a reachable store the
    seed check runs, then one query [find] whose answer [F] shapes; an
    unreachable store fails the seed check; without a handle the seed
    check is skipped and the query fails. *)
Definition read_handler {A} (h : M A) (F : Store -> result A) (find : StoreOp) : Prop :=
  (forall w st,
     available w st ->
     h w = (F (seeded_store st (utcnow w)),
            advance w (seeded_store st (utcnow w))
              (seed_ops st (utcnow w) ++ [find])))
  /\ (forall w st msg,
        db w = Some st -> outage st = Some msg ->
        h w = (Raise (DriverError msg), w))
  /\ (forall w, db w = None -> h w = (Raise DatabaseNotAvailable, w)).

(** The four read handlers leave collection [c] of every world as it was. *)
Definition reads_keep (parse_datetime : string -> option Z) (c : string) : Prop :=
  forall w,
    (forall tag, world_docs (list_projects tag w).2 c = world_docs w c)
    /\ (forall slug, world_docs (get_project slug w).2 c = world_docs w c)
    /\ (forall tag, world_docs (list_posts parse_datetime tag w).2 c = world_docs w c)
    /\ (forall slug, world_docs (get_post parse_datetime slug w).2 c = world_docs w c).

(** The world after a valid contact submission on the fresh store. *)
Definition contacted_world : World :=
  (POST_api_contact sample_validate_email jane_body fresh_world).2.

(** The world a first read request on the fresh store leaves behind. *)
Definition seeded_world : World :=
  (list_posts sample_parse_datetime None fresh_world).2.

(** A store with two projects under one slug and a record that cannot be
    shaped (its title is missing). *)
Definition twin_a : fieldmap :=
  list_to_map [("title", VStr "First"); ("slug", VStr "twin");
               ("description", VStr "stored first"); ("tags", VList [VStr "AI"])].

Definition twin_b : fieldmap :=
  list_to_map [("title", VStr "Second"); ("slug", VStr "twin");
               ("description", VStr "stored second")].

Definition untitled : fieldmap :=
  list_to_map [("slug", VStr "untitled"); ("description", VStr "no title");
               ("tags", VList [VStr "Web"])].

Definition twin_store : Store :=
  insert_all empty_store "project" [twin_a; twin_b].

Definition twin_world : World :=
  {| db := Some twin_store; env_DATABASE_URL := None;
     utcnow := 1700000000; trace := [] |}.

Definition poisoned_store : Store :=
  insert_all empty_store "project" [twin_a; untitled].

Definition poisoned_world : World :=
  {| db := Some poisoned_store; env_DATABASE_URL := None;
     utcnow := 1700000000; trace := [] |}.

(** Reading [db.name] does not raise. *)
Definition name_readable (st : Store) : bool :=
  match db_name st with
  | AttrRaises _ => false
  | _ => true
  end.

(** The names [list_collection_names] gives for a store. *)
Definition collection_names (st : Store) : list string :=
  (map_to_list (colls st)).*1.

(** The response shape of a schema-valid post. *)
Definition response_of_post (b : Post) : PostResponse :=
  {| po_title := b_title b; po_slug := b_slug b; po_excerpt := b_excerpt b;
     po_content := b_content b; po_tags := b_tags b;
     po_published_at := b_published_at b |}.

(** The record can be shaped into a [PostResponse]. *)
Definition post_normalizable (parse_datetime : string -> option Z)
    (d : fieldmap) : Prop :=
  exists r, post_response parse_datetime d = Ok r.

(** What the project handlers read for an absent key. *)
Definition project_default (k : string) : value :=
  if bool_decide (k = "tags") || bool_decide (k = "stack") then VList []
  else if bool_decide (k = "featured") then VBool false
  else VNull.

(** What the post handlers read for an absent key. *)
Definition post_default (k : string) : value :=
  if bool_decide (k = "tags") then VList [] else VNull.

(** [GET /api/posts] with query [tag] answers with exactly the stored
    posts that [tag] selects, each in response shape, in the store's
    order. *)
Definition lists_posts_exactly (parse_datetime : string -> option Z)
    (tag : option string) (w : World) (st : Store) : Prop :=
  exists rs,
    (GET_api_posts parse_datetime tag w).1 = Http200 rs
    /\ Forall2 (fun d r => post_response parse_datetime d = Ok r)
         (selected tag (records (seeded_store st (utcnow w)) "post")) rs.

(** A stored project whose [featured] field holds null. *)
Definition null_featured : fieldmap :=
  <[ "featured" := VNull ]> sparse_project.

Definition is_find (o : StoreOp) : bool :=
  match o with OpFind _ _ _ => true | _ => false end.

(** The four read handlers answer in [w'] as they do in [w]. *)
Definition reads_agree (parse_datetime : string -> option Z) (w w' : World) : Prop :=
  (forall tag, (list_projects tag w').1 = (list_projects tag w).1)
  /\ (forall slug, (get_project slug w').1 = (get_project slug w).1)
  /\ (forall tag, (list_posts parse_datetime tag w').1 = (list_posts parse_datetime tag w).1)
  /\ (forall slug, (get_post parse_datetime slug w').1 = (get_post parse_datetime slug w).1).

(** The operations of one read request: the two counts of the seed
    check first, one find last, and in between only inserts. *)
Definition read_pattern (find : StoreOp) (ops : list StoreOp) : Prop :=
  List.filter is_count ops = [OpCount "project"; OpCount "post"]
  /\ List.filter is_find ops = [find]
  /\ head ops = Some (OpCount "project")
  /\ last ops = Some find.

(** The number of code points of a UTF-8 string: its bytes that are not
    continuation bytes. *)
Fixpoint code_points (s : string) : nat :=
  match s with
  | EmptyString => 0
  | String c rest =>
      if is_continuation c then code_points rest else S (code_points rest)
  end.

Definition long_outage_world : World :=
  {| db := Some {| colls := ∅; next_id := 0; db_name := AttrValue "portfolio";
                   outage := Some ("ServerSelectionTimeoutError: localhost:27017: "
                                   +:+ "[Errno 111] Connection refused, Timeout: 30s, "
                                   +:+ "Topology Description: <TopologyDescription>") |};
     env_DATABASE_URL := None; utcnow := 1700000000; trace := [] |}.

(** The stored records that the store's query for [tag] matches: all of
    them when no tag is given. *)
Definition matched (tag : option string) (stored : list fieldmap) : list fieldmap :=
  List.filter (doc_matches (tag_filter tag)) stored.

(** * Properties *)

(** ** The store and the data-access layer *)

Lemma advance_nil w st : db w = Some st -> advance w st [] = w.
Proof.
  intros H. destruct w as [d e n t]; simpl in *. subst d.
  unfold advance; simpl. by rewrite app_nil_r.
Qed.

Lemma advance_advance w st ops st' ops' :
  advance (advance w st ops) st' ops' = advance w st' (ops ++ ops').
Proof. unfold advance; simpl. by rewrite app_assoc. Qed.

Lemma available_advance w st ops :
  outage st = None -> available (advance w st ops) st.
Proof. by split. Qed.

Lemma count_documents_available w st c :
  available w st ->
  count_documents c w = (Ok (length (coll_docs st c)), advance w st [OpCount c]).
Proof.
  intros [Hdb Hout]. unfold count_documents. rewrite Hdb, Hout.
  destruct w; simpl in *; by subst.
Qed.

Lemma create_document_available w st c f :
  available w st ->
  create_document c f w
  = (Ok (id_str (next_id st)), advance w (store_insert st c f) [OpInsert c f]).
Proof.
  intros [Hdb Hout]. unfold create_document. by rewrite Hdb, Hout.
Qed.

Lemma get_documents_available w st c filt limit :
  available w st ->
  get_documents c filt limit w
  = (Ok (cap limit (List.filter (doc_matches filt) (records st c))),
     advance w st [OpFind c filt limit]).
Proof.
  intros [Hdb Hout]. unfold get_documents. rewrite Hdb, Hout.
  destruct w; simpl in *; by subst.
Qed.

Lemma coll_docs_insert_eq st c f :
  coll_docs (store_insert st c f) c
  = coll_docs st c ++ [{| doc_id := next_id st; doc_fields := f |}].
Proof. unfold coll_docs at 1; simpl. by rewrite lookup_insert_eq. Qed.

Lemma coll_docs_insert_ne st c c' f :
  c <> c' -> coll_docs (store_insert st c f) c' = coll_docs st c'.
Proof. intros H. unfold coll_docs; simpl. by rewrite lookup_insert_ne. Qed.

Lemma outage_insert_all st c l : outage (insert_all st c l) = outage st.
Proof.
  revert st. induction l as [|f l IH]; intros st; [done|].
  simpl. by rewrite IH.
Qed.

Lemma records_insert_all_eq st c l :
  records (insert_all st c l) c = records st c ++ l.
Proof.
  revert st. induction l as [|f l IH]; intros st; simpl.
  - by rewrite app_nil_r.
  - rewrite IH. unfold records. rewrite coll_docs_insert_eq, fmap_app. simpl.
    by rewrite <- app_assoc.
Qed.

Lemma coll_docs_insert_all_ne st c c' l :
  c <> c' -> coll_docs (insert_all st c l) c' = coll_docs st c'.
Proof.
  intros H. revert st. induction l as [|f l IH]; intros st; [done|].
  simpl. by rewrite IH, coll_docs_insert_ne.
Qed.

Lemma next_id_insert_all st c l :
  next_id (insert_all st c l) = next_id st + length l.
Proof.
  revert st. induction l as [|f l IH]; intros st; simpl; [lia|].
  rewrite IH. simpl. lia.
Qed.

(** A loop of [create_document] calls on a reachable store stores the
    field maps in order and raises nothing. *)
Lemma for_each_create {A} (xs : list A) (g : A -> fieldmap) c w st :
  available w st ->
  for_each xs (fun x => _ <- create_document c (g x) ;; ret tt) w
  = (Ok tt, advance w (insert_all st c (g <$> xs)) (OpInsert c <$> (g <$> xs))).
Proof.
  revert w st. induction xs as [|x xs IH]; intros w st Hav.
  - simpl. unfold ret. by rewrite advance_nil by apply Hav.
  - simpl. unfold bind at 1. unfold bind at 1.
    rewrite (create_document_available _ st) by done.
    unfold ret at 1.
    rewrite (IH _ (store_insert st c (g x))).
    + by rewrite advance_advance.
    + apply available_advance. simpl. apply Hav.
Qed.

(** ** The seed routine *)

Lemma is_empty_after_projects st l :
  is_empty (insert_all st "project" l) "post" = is_empty st "post".
Proof. unfold is_empty. by rewrite coll_docs_insert_all_ne. Qed.

Lemma ensure_seed_data_available w st :
  available w st ->
  ensure_seed_data w
  = (Ok tt, advance w (seeded_store st (utcnow w)) (seed_ops st (utcnow w))).
Proof.
  intros Hav. pose proof Hav as [Hdb Hout].
  unfold ensure_seed_data, seeded_store, seed_ops.
  unfold bind at 1. unfold get_db. rewrite Hdb.
  unfold bind at 1. rewrite (count_documents_available _ st) by done.
  fold (is_empty st "project").
  unfold bind at 1.
  destruct (is_empty st "project") eqn:Hp.
  - rewrite (for_each_create _ _ _ _ st) by by apply available_advance.
    rewrite advance_advance.
    unfold bind at 1.
    rewrite (count_documents_available _ (insert_all st "project" seed_projects))
      by (apply available_advance; by rewrite outage_insert_all).
    fold (is_empty (insert_all st "project" seed_projects) "post").
    rewrite is_empty_after_projects.
    destruct (is_empty st "post") eqn:Hq.
    + unfold bind at 1. unfold get_utcnow. simpl utcnow.
      rewrite (for_each_create _ _ _ _ (insert_all st "project" seed_projects)).
      * rewrite !advance_advance. by rewrite <- ?app_assoc.
      * apply available_advance. by rewrite outage_insert_all.
    + unfold ret. rewrite !advance_advance.
      by rewrite <- ?app_assoc, ?app_nil_r.
  - unfold ret at 1.
    unfold bind at 1.
    rewrite (count_documents_available _ st) by by apply available_advance.
    fold (is_empty st "post").
    destruct (is_empty st "post") eqn:Hq.
    + unfold bind at 1. unfold get_utcnow. simpl utcnow.
      rewrite (for_each_create _ _ _ _ st) by by apply available_advance.
      by rewrite !advance_advance.
    + unfold ret. rewrite !advance_advance.
      by rewrite <- ?app_assoc, ?app_nil_r.
Qed.

Lemma inserts_into_app c ops ops' :
  inserts_into c (ops ++ ops') = inserts_into c ops ++ inserts_into c ops'.
Proof. apply omap_app. Qed.

Lemma inserts_into_insert c c' f ops :
  inserts_into c (OpInsert c' f :: ops)
  = if bool_decide (c' = c) then f :: inserts_into c ops else inserts_into c ops.
Proof. unfold inserts_into. simpl. by case_bool_decide. Qed.

Lemma inserts_into_same c l : inserts_into c (OpInsert c <$> l) = l.
Proof.
  induction l as [|f l IH]; [done|].
  rewrite fmap_cons, inserts_into_insert, bool_decide_eq_true_2 by done.
  by rewrite IH.
Qed.

Lemma inserts_into_other c c' l :
  c' <> c -> inserts_into c (OpInsert c' <$> l) = [].
Proof.
  intros H. induction l as [|f l IH]; [done|].
  by rewrite fmap_cons, inserts_into_insert, bool_decide_eq_false_2.
Qed.

Lemma is_empty_length st c :
  is_empty st c = true <-> length (coll_docs st c) = 0.
Proof. unfold is_empty. apply Nat.eqb_eq. Qed.

Lemma is_empty_records st c : is_empty st c = true <-> records st c = [].
Proof.
  rewrite is_empty_length. unfold records.
  destruct (coll_docs st c); simpl; split; intros; done.
Qed.

Lemma seeded_store_outage st now : outage (seeded_store st now) = outage st.
Proof.
  unfold seeded_store.
  repeat (case_match; rewrite ?outage_insert_all); done.
Qed.

Lemma seeded_store_projects st now :
  records (seeded_store st now) "project"
  = if is_empty st "project" then seed_projects else records st "project".
Proof.
  unfold seeded_store.
  assert (Hkeep : forall s l,
            records (insert_all s "post" l) "project" = records s "project").
  { intros s l. unfold records. by rewrite coll_docs_insert_all_ne. }
  destruct (is_empty st "project") eqn:Hp.
  - apply is_empty_records in Hp.
    case_match; rewrite ?Hkeep, records_insert_all_eq, Hp; done.
  - case_match; rewrite ?Hkeep; done.
Qed.

Lemma seeded_store_posts st now :
  records (seeded_store st now) "post"
  = if is_empty st "post" then seed_posts now else records st "post".
Proof.
  unfold seeded_store.
  assert (Hkeep : forall l,
            records (insert_all st "project" l) "post" = records st "post").
  { intros l. unfold records. by rewrite coll_docs_insert_all_ne. }
  destruct (is_empty st "project") eqn:Hp.
  - rewrite is_empty_after_projects.
    destruct (is_empty st "post") eqn:Hq; [|apply Hkeep].
    rewrite records_insert_all_eq, Hkeep.
    apply is_empty_records in Hq. by rewrite Hq.
  - destruct (is_empty st "post") eqn:Hq; [|done].
    rewrite records_insert_all_eq.
    apply is_empty_records in Hq. by rewrite Hq.
Qed.

Lemma seeded_store_nonempty st now c :
  c = "project" \/ c = "post" -> is_empty (seeded_store st now) c = false.
Proof.
  intros Hc. apply not_true_is_false. rewrite is_empty_records.
  destruct Hc as [-> | ->].
  - rewrite seeded_store_projects. destruct (is_empty st "project") eqn:Hp; [done|].
    intros H. apply is_empty_records in H. congruence.
  - rewrite seeded_store_posts. destruct (is_empty st "post") eqn:Hp; [done|].
    intros H. apply is_empty_records in H. congruence.
Qed.

Lemma seeded_store_unseeded st now :
  is_empty st "project" = false -> is_empty st "post" = false ->
  seeded_store st now = st.
Proof. intros Hp Hq. unfold seeded_store. by rewrite Hp, Hq. Qed.

Lemma seeded_store_kept st now c :
  is_empty st c = false ->
  coll_docs (seeded_store st now) c = coll_docs st c.
Proof.
  intros Hc. unfold seeded_store.
  destruct (is_empty st "project") eqn:Hp.
  - assert (c <> "project") as Hne by (intros ->; congruence).
    rewrite is_empty_after_projects.
    destruct (is_empty st "post") eqn:Hq.
    + assert (c <> "post") as Hne' by (intros ->; congruence).
      by rewrite !coll_docs_insert_all_ne.
    + by rewrite coll_docs_insert_all_ne.
  - destruct (is_empty st "post") eqn:Hq; [|done].
    assert (c <> "post") as Hne' by (intros ->; congruence).
    by rewrite coll_docs_insert_all_ne.
Qed.

Lemma inserts_into_seed_ops st now c :
  inserts_into c (seed_ops st now)
  = (if bool_decide (c = "project") && is_empty st "project"
     then seed_projects else [])
    ++ (if bool_decide (c = "post") && is_empty st "post"
        then seed_posts now else []).
Proof.
  unfold seed_ops. rewrite !inserts_into_app.
  change (inserts_into c [OpCount "project"]) with (@nil fieldmap).
  change (inserts_into c [OpCount "post"]) with (@nil fieldmap).
  rewrite !app_nil_l. f_equal.
  - case_bool_decide as Hc; cbn [andb].
    + subst c. destruct (is_empty st "project"); [|done].
      apply inserts_into_same.
    + destruct (is_empty st "project"); [|done].
      by apply inserts_into_other.
  - case_bool_decide as Hc; cbn [andb].
    + subst c. destruct (is_empty st "post"); [|done].
      apply inserts_into_same.
    + destruct (is_empty st "post"); [|done].
      by apply inserts_into_other.
Qed.

(** C1.  On a reachable store, for each of the two content collections
    ([project], [post]): when the collection holds no document, the seed
    routine inserts exactly the fixed example set (three project records,
    one post record), and when it holds some, the routine inserts nothing
    into it and leaves it as it was.  A second run right after the first
    performs no insert and leaves the store unchanged. *)
Theorem ensure_seed_data_seeds_once (w : World) (st : Store) :
  available w st ->
  exists st1 ops1 ops2,
    ensure_seed_data w = (Ok tt, advance w st1 ops1)
    /\ (forall c examples,
          (c = "project" /\ examples = seed_projects
           \/ c = "post" /\ examples = seed_posts (utcnow w)) ->
          (length (coll_docs st c) = 0 ->
             records st1 c = examples /\ inserts_into c ops1 = examples)
          /\ (length (coll_docs st c) <> 0 ->
             coll_docs st1 c = coll_docs st c /\ inserts_into c ops1 = []))
    /\ length seed_projects = 3
    /\ length (seed_posts (utcnow w)) = 1
    /\ ensure_seed_data (advance w st1 ops1)
       = (Ok tt, advance (advance w st1 ops1) st1 ops2)
    /\ List.filter is_insert ops2 = [].
Proof.
  intros Hav. set (now := utcnow w).
  exists (seeded_store st now), (seed_ops st now),
         (seed_ops (seeded_store st now) now).
  split; [by apply ensure_seed_data_available|].
  split.
  { intros c examples Hc. split.
    - intros Hlen. apply is_empty_length in Hlen.
      destruct Hc as [[-> ->] | [-> ->]].
      + rewrite seeded_store_projects, inserts_into_seed_ops, Hlen.
        rewrite bool_decide_eq_true_2, (bool_decide_eq_false_2 (_ = "post")) by done.
        cbn [andb]. by rewrite app_nil_r.
      + rewrite seeded_store_posts, inserts_into_seed_ops, Hlen.
        rewrite (bool_decide_eq_false_2 (_ = "project")), bool_decide_eq_true_2 by done.
        done.
    - intros Hlen.
      assert (is_empty st c = false) as Hne.
      { apply not_true_is_false. by rewrite is_empty_length. }
      split; [by apply seeded_store_kept|].
      rewrite inserts_into_seed_ops.
      destruct Hc as [[-> ->] | [-> ->]]; rewrite Hne.
      + rewrite (bool_decide_eq_false_2 (_ = "post")) by done.
        by rewrite andb_false_r.
      + rewrite (bool_decide_eq_false_2 (_ = "project")) by done.
        by rewrite andb_false_r. }
  split; [done|]. split; [done|].
  assert (is_empty (seeded_store st now) "project" = false) as Hp
    by (apply seeded_store_nonempty; by left).
  assert (is_empty (seeded_store st now) "post" = false) as Hq
    by (apply seeded_store_nonempty; by right).
  split.
  - rewrite (ensure_seed_data_available _ (seeded_store st now)).
    + change (utcnow (advance w (seeded_store st now) (seed_ops st now))) with now.
      by rewrite (seeded_store_unseeded _ _ Hp Hq).
    + apply available_advance. rewrite seeded_store_outage. apply Hav.
  - unfold seed_ops. by rewrite Hp, Hq.
Qed.

Lemma ensure_seed_data_seeds_once_witness :
  exists st1 ops1 ops2,
    ensure_seed_data fresh_world = (Ok tt, advance fresh_world st1 ops1)
    /\ (forall c examples,
          (c = "project" /\ examples = seed_projects
           \/ c = "post" /\ examples = seed_posts (utcnow fresh_world)) ->
          (length (coll_docs empty_store c) = 0 ->
             records st1 c = examples /\ inserts_into c ops1 = examples)
          /\ (length (coll_docs empty_store c) <> 0 ->
             coll_docs st1 c = coll_docs empty_store c
             /\ inserts_into c ops1 = []))
    /\ length seed_projects = 3
    /\ length (seed_posts (utcnow fresh_world)) = 1
    /\ ensure_seed_data (advance fresh_world st1 ops1)
       = (Ok tt, advance (advance fresh_world st1 ops1) st1 ops2)
    /\ List.filter is_insert ops2 = [].
Proof.
  apply (ensure_seed_data_seeds_once fresh_world empty_store).
  split; reflexivity.
Defined.

(** ** Filters *)

Lemma doc_matches_empty d : doc_matches ∅ d = true.
Proof. unfold doc_matches. by rewrite map_to_list_empty. Qed.

Lemma doc_matches_singleton k x d :
  doc_matches {[ k := x ]} d = field_matches x (d !! k).
Proof.
  unfold doc_matches. rewrite map_to_list_singleton. simpl.
  by rewrite andb_true_r.
Qed.

Lemma filter_all {A} (f : A -> bool) (l : list A) :
  (forall x, f x = true) -> List.filter f l = l.
Proof.
  intros H. induction l as [|x l IH]; [done|].
  simpl. by rewrite H, IH.
Qed.

(** C9.  When the handle [db] is [None], the seed routine returns
    normally and leaves the world as it was: no count query and no insert
    is recorded.  Every listing and detail handler then behaves as its
    own store query followed by the shaping of the response. *)
Theorem ensure_seed_data_uninitialised {parse_datetime : string -> option Z}
    (w : World) :
  db w = None ->
  ensure_seed_data w = (Ok tt, w)
  /\ (forall tag,
        list_projects tag w
        = (projects <- get_documents "project" (tag_filter tag) None ;;
           comprehension projects (fun p => lift (project_response p))) w)
  /\ (forall slug,
        get_project slug w
        = (projects <- get_documents "project" {[ "slug" := slug ]} (Some 1) ;;
           match projects with
           | [] => raise (HTTPException 404 "Project not found")
           | p :: _ => lift (project_response p)
           end) w)
  /\ (forall tag,
        list_posts parse_datetime tag w
        = (posts <- get_documents "post" (tag_filter tag) None ;;
           comprehension posts (fun po => lift (post_response parse_datetime po))) w)
  /\ (forall slug,
        get_post parse_datetime slug w
        = (posts <- get_documents "post" {[ "slug" := slug ]} (Some 1) ;;
           match posts with
           | [] => raise (HTTPException 404 "Post not found")
           | po :: _ => lift (post_response parse_datetime po)
           end) w).
Proof.
  intros Hdb.
  assert (ensure_seed_data w = (Ok tt, w)) as Hseed.
  { unfold ensure_seed_data, bind, get_db. by rewrite Hdb. }
  split; [done|].
  repeat split; intros x.
  - unfold list_projects. unfold bind at 1. by rewrite Hseed.
  - unfold get_project. unfold bind at 1. by rewrite Hseed.
  - unfold list_posts. unfold bind at 1. by rewrite Hseed.
  - unfold get_post. unfold bind at 1. by rewrite Hseed.
Qed.

Lemma ensure_seed_data_uninitialised_witness :
  ensure_seed_data uninitialised_world = (Ok tt, uninitialised_world)
  /\ trace (ensure_seed_data uninitialised_world).2 = []
  /\ list_projects None uninitialised_world
     = (Raise DatabaseNotAvailable, uninitialised_world).
Proof.
  destruct (ensure_seed_data_uninitialised (parse_datetime := sample_parse_datetime)
      uninitialised_world eq_refl)
    as (Hseed & Hlist & _).
  split; [exact Hseed|]. split.
  - rewrite Hseed. reflexivity.
  - rewrite Hlist. reflexivity.
Defined.


(** ** Handlers on a reachable store *)

Lemma after_seed {A} (k : M A) w st :
  available w st ->
  (ensure_seed_data ;;; k) w
  = k (advance w (seeded_store st (utcnow w)) (seed_ops st (utcnow w))).
Proof.
  intros Hav. unfold bind. by rewrite (ensure_seed_data_available _ st).
Qed.

Lemma seeded_available w st :
  available w st ->
  available (advance w (seeded_store st (utcnow w)) (seed_ops st (utcnow w)))
            (seeded_store st (utcnow w)).
Proof.
  intros Hav. apply available_advance. rewrite seeded_store_outage. apply Hav.
Qed.

Lemma take_one_filter_nil {A} (f : A -> bool) (l : list A) :
  take 1 (List.filter f l) = [] <-> Forall (fun d => f d = false) l.
Proof.
  induction l as [|x l IH]; simpl.
  - split; [constructor | done].
  - destruct (f x) eqn:Hx; simpl.
    + split; [done|]. intros H. inversion H; congruence.
    + rewrite IH. split; [by constructor | by inversion 1].
Qed.

Lemma get_project_available slug w st :
  available w st ->
  get_project slug w
  = let st' := seeded_store st (utcnow w) in
    let q := {[ "slug" := slug ]} in
    (match take 1 (List.filter (doc_matches q) (records st' "project")) with
     | [] => Raise (HTTPException 404 "Project not found")
     | p :: _ => project_response p
     end,
     advance w st' (seed_ops st (utcnow w) ++ [OpFind "project" q (Some 1)])).
Proof.
  intros Hav. unfold get_project. rewrite (after_seed _ _ st) by done.
  unfold bind. rewrite (get_documents_available _ _ _ _ _ (seeded_available _ _ Hav)).
  rewrite advance_advance. simpl.
  by destruct (take 1 _).
Qed.

Lemma get_post_available {parse_datetime : string -> option Z} slug w st :
  available w st ->
  get_post parse_datetime slug w
  = let st' := seeded_store st (utcnow w) in
    let q := {[ "slug" := slug ]} in
    (match take 1 (List.filter (doc_matches q) (records st' "post")) with
     | [] => Raise (HTTPException 404 "Post not found")
     | po :: _ => post_response parse_datetime po
     end,
     advance w st' (seed_ops st (utcnow w) ++ [OpFind "post" q (Some 1)])).
Proof.
  intros Hav. unfold get_post. rewrite (after_seed _ _ st) by done.
  unfold bind. rewrite (get_documents_available _ _ _ _ _ (seeded_available _ _ Hav)).
  rewrite advance_advance. simpl.
  by destruct (take 1 _).
Qed.

Lemma project_response_not_http p c d :
  project_response p <> Raise (HTTPException c d).
Proof.
  unfold project_response, ProjectResponse_new, validated.
  by case_match.
Qed.

Lemma post_response_not_http {parse_datetime : string -> option Z} p c d :
  post_response parse_datetime p <> Raise (HTTPException c d).
Proof.
  unfold post_response, PostResponse_new, validated.
  by case_match.
Qed.

Lemma no_match_forallb q l :
  forallb (fun d => negb (doc_matches q d)) l = true -> no_match q l.
Proof.
  unfold no_match. rewrite forallb_forall, Forall_forall.
  intros H d Hd. apply negb_true_iff, H. by apply list_elem_of_In.
Qed.

Lemma respond_not_404 {A} (r : result A) :
  (forall c d, r <> Raise (HTTPException c d)) -> status_of (respond r) <> 404.
Proof.
  intros H. destruct r as [a | [c d | m | | msg]]; simpl; try done.
  by destruct (H c d).
Qed.

(** C3.  On a reachable store, with the records as the lookup finds
    them (after the seed check): when no project record matches the slug,
    [GET /api/projects/{slug}] answers 404 with the message
    [Project not found]; the answer has status 404 only then; and the
    lookup is the last store operation, a query on [slug] with limit 1.
    The same holds for [GET /api/posts/{slug}] with [Post not found].
    Neither message is empty. *)
Theorem detail_not_found {parse_datetime : string -> option Z}
    (slug : string) (w : World) (st : Store) :
  available w st ->
  let st' := seeded_store st (utcnow w) in
  let q : gmap string string := {[ "slug" := slug ]} in
  ((no_match q (records st' "project") ->
      (GET_api_project slug w).1 = HttpError 404 "Project not found")
   /\ (status_of (GET_api_project slug w).1 = 404 ->
         no_match q (records st' "project"))
   /\ last (trace (GET_api_project slug w).2)
        = Some (OpFind "project" q (Some 1)))
  /\ ((no_match q (records st' "post") ->
         (GET_api_post parse_datetime slug w).1 = HttpError 404 "Post not found")
      /\ (status_of (GET_api_post parse_datetime slug w).1 = 404 ->
            no_match q (records st' "post"))
      /\ last (trace (GET_api_post parse_datetime slug w).2)
           = Some (OpFind "post" q (Some 1)))
  /\ "Project not found" <> "" /\ "Post not found" <> "".
Proof.
  intros Hav st' q.
  unfold GET_api_project, GET_api_post, serve.
  rewrite (get_project_available _ _ st), (get_post_available _ _ st) by done.
  cbv zeta. fold st' q. cbn [fst snd].
  repeat split; try done.
  - intros Hno. apply take_one_filter_nil in Hno. by rewrite Hno.
  - intros Hst. apply take_one_filter_nil.
    destruct (take 1 _) as [|p l]; [done|].
    exfalso. revert Hst. apply respond_not_404. intros c d.
    apply project_response_not_http.
  - unfold advance; cbn [trace]. by rewrite app_assoc, last_snoc.
  - intros Hno. apply take_one_filter_nil in Hno. by rewrite Hno.
  - intros Hst. apply take_one_filter_nil.
    destruct (take 1 _) as [|p l]; [done|].
    exfalso. revert Hst. apply respond_not_404. intros c d.
    apply post_response_not_http.
  - unfold advance; cbn [trace]. by rewrite app_assoc, last_snoc.
Qed.

Lemma detail_not_found_witness :
  (GET_api_project "no-such-slug" fresh_world).1
  = HttpError 404 "Project not found"
  /\ (GET_api_post sample_parse_datetime "no-such-slug" fresh_world).1
     = HttpError 404 "Post not found".
Proof.
  destruct (detail_not_found (parse_datetime := sample_parse_datetime)
      "no-such-slug" fresh_world empty_store)
    as ((Hproject & _) & (Hpost & _) & _).
  - split; reflexivity.
  - split.
    + apply Hproject, no_match_forallb. vm_compute. reflexivity.
    + apply Hpost, no_match_forallb. vm_compute. reflexivity.
Defined.

(** ** Listing projects *)

Lemma comprehension_lift {S A B} (f : A -> result B) (l : list A) (s : S) :
  comprehension l (fun x => lift (f x)) s = (collect f l, s).
Proof.
  induction l as [|x l IH]; [done|].
  simpl. unfold bind at 1. unfold lift at 1.
  destruct (f x) as [y|e]; [|done].
  unfold bind at 1. rewrite IH.
  by destruct (collect f l).
Qed.

Lemma list_projects_available tag w st :
  available w st ->
  list_projects tag w
  = let st' := seeded_store st (utcnow w) in
    (collect project_response
       (List.filter (doc_matches (tag_filter tag)) (records st' "project")),
     advance w st'
       (seed_ops st (utcnow w) ++ [OpFind "project" (tag_filter tag) None])).
Proof.
  intros Hav. unfold list_projects. rewrite (after_seed _ _ st) by done.
  unfold bind. rewrite (get_documents_available _ _ _ _ _ (seeded_available _ _ Hav)).
  rewrite comprehension_lift, advance_advance. done.
Qed.

Lemma collect_normalizable (l : list fieldmap) :
  Forall normalizable l ->
  exists rs, collect project_response l = Ok rs
             /\ Forall2 (fun d r => project_response d = Ok r) l rs.
Proof.
  induction 1 as [|d l [r Hr] _ (rs & Hrs & Hall)].
  - exists []. by split; [|constructor].
  - exists (r :: rs). simpl. rewrite Hr, Hrs. split; [done|]. by constructor.
Qed.

Lemma as_str_list_shape v l :
  as_str_list v = Some l -> exists vs, v = VList vs.
Proof. destruct v; try done. by eexists. Qed.

Lemma bind_Some_inv {A B} (o : option A) (k : A -> option B) b :
  o ≫= k = Some b -> exists a, o = Some a /\ k a = Some b.
Proof. destruct o as [a|]; [|done]. intros H. by exists a. Qed.

(** A record that can be shaped has a list (or nothing) under [tags]. *)
Lemma normalizable_tags d :
  normalizable d -> d !! "tags" = None \/ exists vs, d !! "tags" = Some (VList vs).
Proof.
  intros [r Hr]. unfold project_response, ProjectResponse_new, validated in Hr.
  case_match eqn:Hv; [|done]. clear Hr.
  apply bind_Some_inv in Hv as (t & _ & Hv).
  apply bind_Some_inv in Hv as (sl & _ & Hv).
  apply bind_Some_inv in Hv as (ds & _ & Hv).
  apply bind_Some_inv in Hv as (tg & Htg & _).
  unfold py_get_default in Htg.
  destruct (d !! "tags") as [v|]; [|by left].
  right. simpl in Htg. apply as_str_list_shape in Htg as [vs ->]. by exists vs.
Qed.

Lemma tag_query_is_membership X d :
  normalizable d -> doc_matches {[ "tags" := X ]} d = has_tag X d.
Proof.
  intros Hd. rewrite doc_matches_singleton. unfold has_tag.
  by destruct (normalizable_tags d Hd) as [-> | [vs ->]].
Qed.

Lemma filter_ext_Forall {A} (P : A -> Prop) (f g : A -> bool) (l : list A) :
  (forall x, P x -> f x = g x) -> Forall P l -> List.filter f l = List.filter g l.
Proof.
  intros Hfg. induction 1 as [|x l Hx _ IH]; [done|].
  simpl. by rewrite (Hfg x Hx), IH.
Qed.

Lemma Forall_filter_bool {A} (P : A -> Prop) (f : A -> bool) (l : list A) :
  Forall P l -> Forall P (List.filter f l).
Proof.
  induction 1 as [|x l Hx _ IH]; [constructor|].
  simpl. destruct (f x); [by constructor | done].
Qed.

Lemma as_str_list_of_str_list l : as_str_list (of_str_list l) = Some l.
Proof.
  unfold as_str_list, of_str_list.
  induction l as [|x l IH]; [done|].
  rewrite fmap_cons. simpl. simpl in IH. by rewrite IH.
Qed.

Lemma as_opt_str_of_opt_str o : as_opt_str (of_opt_str o) = Some o.
Proof. by destruct o. Qed.

(** A stored schema-valid project is shaped field by field. *)
Lemma project_response_dict q :
  project_response (Project_dict q) = Ok (response_of_project q).
Proof.
  destruct q as [t s d tg sk im cv gh dm cs sts ft].
  unfold project_response, ProjectResponse_new, py_get, py_get_default,
    Project_dict, response_of_project. cbn [p_title p_slug p_description p_tags p_stack
    p_impact p_cover_url p_github_url p_demo_url p_case_study p_stats p_featured].
  remember (of_str_list tg) as vtg eqn:Htg.
  remember (of_str_list sk) as vsk eqn:Hsk.
  remember (of_opt_str im) as vim eqn:Him.
  remember (of_opt_str cv) as vcv eqn:Hcv.
  remember (of_opt_str gh) as vgh eqn:Hgh.
  remember (of_opt_str dm) as vdm eqn:Hdm.
  remember (of_opt_str cs) as vcs eqn:Hcs.
  remember (VList (Stat_dict <$> sts)) as vst eqn:Hst.
  repeat match goal with
         | |- context [ @lookup _ _ _ _ ?k ?m ] =>
             let v := eval vm_compute in (m !! k) in
             change (m !! k) with v
         end.
  simpl. subst.
  rewrite !as_str_list_of_str_list. simpl.
  rewrite !as_opt_str_of_opt_str. done.
Qed.

Lemma seed_projects_normalizable : Forall normalizable seed_projects.
Proof.
  unfold seed_projects. apply Forall_fmap, Forall_forall. intros q _.
  exists (response_of_project q). apply project_response_dict.
Qed.

Lemma tag_filter_nonempty X : X <> "" -> tag_filter (Some X) = {[ "tags" := X ]}.
Proof. by destruct X. Qed.


(** ** Response normalisation *)

Lemma ProjectResponse_new_refill
    t s d tg sk im cv gh dm ft r tg' sk' ft' l l' b :
  ProjectResponse_new t s d tg sk im cv gh dm ft = Ok r ->
  as_str_list tg' = Some l -> as_str_list sk' = Some l' -> as_bool ft' = Some b ->
  ProjectResponse_new t s d tg' sk' im cv gh dm ft'
  = Ok (with_featured b (with_stack l' (with_tags l r))).
Proof.
  intros H Htg Hsk Hft. unfold ProjectResponse_new, validated in *.
  rewrite Htg, Hsk, Hft.
  destruct (as_str t); simpl in *; [|discriminate H].
  destruct (as_str s); simpl in *; [|discriminate H].
  destruct (as_str d); simpl in *; [|discriminate H].
  destruct (as_str_list tg); simpl in *; [|discriminate H].
  destruct (as_str_list sk); simpl in *; [|discriminate H].
  destruct (as_opt_str im); simpl in *; [|discriminate H].
  destruct (as_opt_str cv); simpl in *; [|discriminate H].
  destruct (as_opt_str gh); simpl in *; [|discriminate H].
  destruct (as_opt_str dm); simpl in *; [|discriminate H].
  destruct (as_bool ft); simpl in *; [|discriminate H].
  by injection H as <-.
Qed.

Lemma ProjectResponse_new_fields t s d tg sk im cv gh dm ft r :
  ProjectResponse_new t s d tg sk im cv gh dm ft = Ok r ->
  as_str_list tg = Some (pr_tags r) /\ as_str_list sk = Some (pr_stack r)
  /\ as_bool ft = Some (pr_featured r).
Proof.
  intros H. unfold ProjectResponse_new, validated in *.
  destruct (as_str t); simpl in *; [|discriminate H].
  destruct (as_str s); simpl in *; [|discriminate H].
  destruct (as_str d); simpl in *; [|discriminate H].
  destruct (as_str_list tg); simpl in *; [|discriminate H].
  destruct (as_str_list sk); simpl in *; [|discriminate H].
  destruct (as_opt_str im); simpl in *; [|discriminate H].
  destruct (as_opt_str cv); simpl in *; [|discriminate H].
  destruct (as_opt_str gh); simpl in *; [|discriminate H].
  destruct (as_opt_str dm); simpl in *; [|discriminate H].
  destruct (as_bool ft); simpl in *; [|discriminate H].
  by injection H as <-.
Qed.

Lemma with_same r :
  with_featured (pr_featured r) (with_stack (pr_stack r) (with_tags (pr_tags r) r)) = r.
Proof. by destruct r. Qed.

Ltac other_fields H :=
  unfold project_response, py_get, py_get_default in H |- *;
  rewrite ?lookup_insert_eq in H;
  rewrite ?lookup_insert_ne in H by discriminate.

(** C6.  Both project handlers shape a stored record with
    [project_response].  A record without [featured] that would be
    accepted with some value in that field is accepted as it is, and its
    response has [featured] false; likewise a record without [tags]
    (without [stack]) gets the empty list there.  The absence of these
    fields is thus never the cause of an error. *)
Theorem project_response_defaults (p : fieldmap) (v : value) (r : ProjectResponse) :
  (p !! "featured" = None ->
     project_response (<[ "featured" := v ]> p) = Ok r ->
     project_response p = Ok (with_featured false r))
  /\ (p !! "tags" = None ->
       project_response (<[ "tags" := v ]> p) = Ok r ->
       project_response p = Ok (with_tags [] r))
  /\ (p !! "stack" = None ->
       project_response (<[ "stack" := v ]> p) = Ok r ->
       project_response p = Ok (with_stack [] r)).
Proof.
  repeat split; intros Hmiss H; other_fields H; rewrite Hmiss; simpl default in *.
  - destruct (ProjectResponse_new_fields _ _ _ _ _ _ _ _ _ _ _ H) as (Htg & Hsk & _).
    rewrite (ProjectResponse_new_refill _ _ _ _ _ _ _ _ _ _ _ _ _ (VBool false)
               _ _ false H Htg Hsk eq_refl).
    by destruct r.
  - destruct (ProjectResponse_new_fields _ _ _ _ _ _ _ _ _ _ _ H) as (_ & Hsk & Hft).
    rewrite (ProjectResponse_new_refill _ _ _ _ _ _ _ _ _ _ _ (VList []) _ _
               [] _ _ H eq_refl Hsk Hft).
    by destruct r.
  - destruct (ProjectResponse_new_fields _ _ _ _ _ _ _ _ _ _ _ H) as (Htg & _ & Hft).
    rewrite (ProjectResponse_new_refill _ _ _ _ _ _ _ _ _ _ _ _ (VList []) _
               _ [] _ H Htg eq_refl Hft).
    by destruct r.
Qed.

Lemma project_response_defaults_witness :
  exists r, project_response sparse_project = Ok r
            /\ pr_featured r = false /\ pr_tags r = [] /\ pr_stack r = [].
Proof.
  destruct (project_response_defaults sparse_project (VBool true)
              {| pr_title := "Telemetry Pipeline for Edge Devices";
                 pr_slug := "edge-telemetry";
                 pr_description :=
                   "Exactly-once ingestion with Kafka + Flink; real-time dashboards.";
                 pr_tags := []; pr_stack := []; pr_impact := None;
                 pr_cover_url := None; pr_github_url := None;
                 pr_demo_url := None; pr_featured := true |})
    as (Hfeatured & _ & _).
  eexists. split.
  - apply Hfeatured; vm_compute; reflexivity.
  - repeat split.
Defined.

(** The same at the endpoints: a stored record with only the required
    fields is served with the defaults filled in. *)
Example sparse_project_served :
  (GET_api_project "edge-telemetry" sparse_world).1
  = Http200 {| pr_title := "Telemetry Pipeline for Edge Devices";
               pr_slug := "edge-telemetry";
               pr_description :=
                 "Exactly-once ingestion with Kafka + Flink; real-time dashboards.";
               pr_tags := []; pr_stack := []; pr_impact := None;
               pr_cover_url := None; pr_github_url := None;
               pr_demo_url := None; pr_featured := false |}
  /\ exists r, (GET_api_projects None sparse_world).1 = Http200 [r]
               /\ pr_featured r = false.
Proof. split; [|eexists; split]; vm_compute; reflexivity. Qed.

(** ** Identifiers and the store invariant *)




Lemma store_wf_empty : store_wf empty_store.
Proof. intros c d Hd. unfold coll_docs in Hd. simpl in Hd. by apply elem_of_nil in Hd. Qed.

Lemma store_wf_insert st c f : store_wf st -> store_wf (store_insert st c f).
Proof.
  intros Hwf c' d Hd. simpl.
  destruct (decide (c = c')) as [<- | Hne].
  - rewrite coll_docs_insert_eq in Hd.
    apply elem_of_app in Hd as [Hd | Hd].
    + specialize (Hwf _ _ Hd). lia.
    + apply list_elem_of_singleton in Hd. subst d. simpl. lia.
  - rewrite coll_docs_insert_ne in Hd by done.
    specialize (Hwf _ _ Hd). lia.
Qed.


(** ** The contact endpoint *)

Section Contact.

Variable validate_email : string -> option string.

Lemma ContactRequest_dict_fields r :
  required_str (ContactRequest_dict r) "name" = Some (cr_name r)
  /\ required_str (ContactRequest_dict r) "email" = Some (cr_email r)
  /\ required_str (ContactRequest_dict r) "message" = Some (cr_message r).
Proof. destruct r. repeat split. Qed.

Lemma ContactRequest_new_rejects body :
  email_rejected validate_email body \/ field_missing body ->
  ContactRequest_new validate_email body = Raise (ValidationError "ContactRequest").
Proof.
  unfold ContactRequest_new, validated, required_str, email_rejected, field_missing.
  intros H.
  destruct (body !! "name") as [[]|]; simpl; try done;
    destruct (body !! "email") as [[]|]; simpl; try done;
    try (destruct H as [H | [H | [H | H]]]; done).
  destruct (validate_email s0) eqn:He; simpl; [|done].
  destruct (body !! "message") as [[]|]; simpl; try done;
    destruct H as [H | [H | [H | H]]]; congruence.
Qed.

Lemma ContactRequest_new_accepts body n e e' m :
  body !! "name" = Some (VStr n) ->
  body !! "email" = Some (VStr e) ->
  validate_email e = Some e' ->
  body !! "message" = Some (VStr m) ->
  ContactRequest_new validate_email body
  = Ok {| cr_name := n; cr_email := e'; cr_message := m |}.
Proof.
  intros Hn He Hv Hm. unfold ContactRequest_new, required_str.
  rewrite Hn, He, Hm. simpl. by rewrite Hv.
Qed.

Lemma ContactMessage_new_payload payload e :
  validate_email (cr_email payload) = Some e ->
  ContactMessage_new validate_email (ContactRequest_dict payload)
  = Ok {| cm_name := cr_name payload; cm_email := e;
          cm_message := cr_message payload |}.
Proof.
  intros Hv. unfold ContactMessage_new.
  destruct (ContactRequest_dict_fields payload) as (-> & -> & ->).
  simpl. by rewrite Hv.
Qed.

(** C4.  A body whose [email] is not an address the validator accepts,
    or that lacks one of [name], [email], [message], is answered with
    422 and the world is left exactly as it was: nothing is inserted
    into [contactmessage] and no store operation is carried out. *)
Theorem contact_rejected (body : fieldmap) (w : World) :
  email_rejected validate_email body \/ field_missing body ->
  POST_api_contact validate_email body w = (Http422 "ContactRequest", w)
  /\ status_of (POST_api_contact validate_email body w).1 = 422
  /\ world_docs (POST_api_contact validate_email body w).2 "contactmessage"
     = world_docs w "contactmessage"
  /\ trace (POST_api_contact validate_email body w).2 = trace w.
Proof.
  intros H. unfold POST_api_contact.
  by rewrite (ContactRequest_new_rejects body H).
Qed.


(** C10.  The contact handler leaves every collection other than
    [contactmessage] (so [project] and [post]) as it was, whatever the
    payload and the state of the store.  It carries out no count query,
    hence no seed check; its only store operation is one insert into
    [contactmessage], carried out exactly when it returns a reply, which
    it does for every validated payload on a reachable store; when it
    raises, the world is as before. *)
Theorem submit_contact_frame (payload : ContactRequest) (w : World) :
  let out := submit_contact validate_email payload w in
  world_docs out.2 "project" = world_docs w "project"
  /\ world_docs out.2 "post" = world_docs w "post"
  /\ (forall c, c <> "contactmessage" -> world_docs out.2 c = world_docs w c)
  /\ (exists ops,
        trace out.2 = trace w ++ ops
        /\ List.filter is_count ops = []
        /\ ((exists reply f,
               out.1 = Ok reply /\ ops = [OpInsert "contactmessage" f])
            \/ (exists e, out.1 = Raise e /\ ops = [] /\ out.2 = w)))
  /\ (forall st,
        available w st ->
        validate_email (cr_email payload) = Some (cr_email payload) ->
        exists reply, out.1 = Ok reply).
Proof.
  intros out.
  assert (forall c, c <> "contactmessage" -> world_docs out.2 c = world_docs w c)
    as Hframe.
  { intros c Hc. unfold out, submit_contact, bind, lift.
    destruct (ContactMessage_new _ _) as [doc|e]; [|done].
    unfold create_document.
    destruct (db w) as [st|] eqn:Hdb; [|done].
    destruct (outage st); [done|].
    unfold ret, world_docs. simpl. rewrite Hdb.
    by rewrite coll_docs_insert_ne. }
  split; [by apply Hframe|]. split; [by apply Hframe|]. split; [done|].
  split.
  - unfold out, submit_contact, bind, lift.
    destruct (ContactMessage_new _ _) as [doc|e].
    + unfold create_document.
      destruct (db w) as [st|] eqn:Hdb.
      * destruct (outage st) as [msg|].
        -- exists []. rewrite app_nil_r. repeat split. right. by eexists.
        -- eexists [_]. repeat split. left. by do 2 eexists.
      * exists []. rewrite app_nil_r. repeat split. right. by eexists.
    + exists []. rewrite app_nil_r. repeat split. right. by eexists.
  - intros st Hav Hv. unfold out, submit_contact, bind, lift.
    rewrite (ContactMessage_new_payload _ _ Hv).
    rewrite (create_document_available _ st) by done.
    by eexists.
Qed.

End Contact.

Lemma sample_validate_email_idem a a' :
  sample_validate_email a = Some a' -> sample_validate_email a' = Some a'.
Proof.
  unfold sample_validate_email. intros H.
  destruct (existsb _ (list_ascii_of_string a)) eqn:E; [|done].
  injection H as <-. by rewrite E.
Qed.

Lemma contact_rejected_witness :
  POST_api_contact sample_validate_email bad_email_body fresh_world
  = (Http422 "ContactRequest", fresh_world).
Proof.
  apply (contact_rejected sample_validate_email bad_email_body fresh_world).
  left. vm_compute. reflexivity.
Defined.


Lemma submit_contact_frame_witness :
  exists reply,
    (submit_contact sample_validate_email
       {| cr_name := "Jane"; cr_email := "jane@example.com"; cr_message := "hi" |}
       fresh_world).1 = Ok reply.
Proof.
  destruct (submit_contact_frame sample_validate_email
              {| cr_name := "Jane"; cr_email := "jane@example.com";
                 cr_message := "hi" |} fresh_world) as (_ & _ & _ & _ & H).
  apply (H empty_store).
  - split; reflexivity.
  - vm_compute; reflexivity.
Defined.

(** ** The diagnostics endpoint *)

(** C7.  Whatever the world, [GET /test] returns a payload and raises
    nothing.  The [database] field reads [Connected & Working] only on a
    healthy store; in every other case (handle never initialised, store
    unreachable or listing failing, reading the name failing) it starts
    with a warning or error mark, followed in the last two cases by the
    first 80 characters of the error text. *)
Theorem test_database_never_raises (w : World) :
  exists response w',
    test_database w = (Ok response, w')
    /\ (GET_test w).1 = Http200 response
    /\ (healthy w = true -> database response = "✅ Connected & Working")
    /\ (healthy w = false -> error_indicator (database response) = true)
    /\ (db w = None -> database response = "⚠️ Available but not initialized")
    /\ (forall st msg,
          db w = Some st -> db_name st = AttrRaises msg ->
          database response = "❌ Error: " +:+ py_slice_to 80 msg)
    /\ (forall st msg,
          db w = Some st -> (forall m, db_name st <> AttrRaises m) ->
          outage st = Some msg ->
          database response
          = "⚠️ Connected but Error: " +:+ py_slice_to 80 msg).
Proof.
  destruct w as [[[cs nid nm out]|] url now tr].
  - destruct nm as [|name|msg]; destruct out as [m|];
      (do 2 eexists; split; [reflexivity|]; split; [reflexivity|];
       repeat split; try discriminate; try reflexivity;
       intros st' msg' [= <-]; simpl; try discriminate;
       try (intros _ [= <-]; reflexivity);
       try (intros [= <-]; reflexivity);
       try (intros Hn; by destruct (Hn msg))).
  - do 2 eexists. split; [reflexivity|]. split; [reflexivity|].
    repeat split; try discriminate; try reflexivity.
Qed.

Example test_database_unreachable :
  (GET_test unreachable_world).1
  = Http200 {| backend := "✅ Running";
               database := "⚠️ Connected but Error: localhost:27017: [Errno 111] Connection refused";
               database_url := Some "✅ Set";
               database_name := Some "portfolio";
               connection_status := "Connected";
               collections := [] |}.
Proof. vm_compute. reflexivity. Qed.

Example test_database_uninitialised :
  (GET_test uninitialised_world).1
  = Http200 {| backend := "✅ Running";
               database := "⚠️ Available but not initialized";
               database_url := None;
               database_name := None;
               connection_status := "Not Connected";
               collections := [] |}.
Proof. vm_compute. reflexivity. Qed.

Example test_database_after_seeding :
  exists w, (GET_api_projects None fresh_world).2 = w
            /\ (GET_test w).1
               = Http200 {| backend := "✅ Running";
                            database := "✅ Connected & Working";
                            database_url := Some "✅ Set";
                            database_name := Some "portfolio";
                            connection_status := "Connected";
                            collections := ["post"; "project"] |}.
Proof. eexists. split; [reflexivity|]. vm_compute. reflexivity. Qed.

(** * Further properties of the handlers *)

(** ** Store failures *)

Lemma ensure_seed_data_outage w st msg :
  db w = Some st -> outage st = Some msg ->
  ensure_seed_data w = (Raise (DriverError msg), w).
Proof.
  intros Hdb Hout. unfold ensure_seed_data.
  unfold bind at 1. unfold get_db. rewrite Hdb.
  unfold bind at 1. unfold count_documents at 1. by rewrite Hdb, Hout.
Qed.

Lemma ensure_seed_data_none w :
  db w = None -> ensure_seed_data w = (Ok tt, w).
Proof. intros Hdb. unfold ensure_seed_data, bind, get_db. by rewrite Hdb. Qed.

Lemma after_seed_raise {A} (k : M A) w e :
  ensure_seed_data w = (Raise e, w) -> (ensure_seed_data ;;; k) w = (Raise e, w).
Proof. intros H. unfold bind. by rewrite H. Qed.

Lemma list_posts_available {parse_datetime : string -> option Z} tag w st :
  available w st ->
  list_posts parse_datetime tag w
  = let st' := seeded_store st (utcnow w) in
    (collect (post_response parse_datetime)
       (List.filter (doc_matches (tag_filter tag)) (records st' "post")),
     advance w st'
       (seed_ops st (utcnow w) ++ [OpFind "post" (tag_filter tag) None])).
Proof.
  intros Hav. unfold list_posts. rewrite (after_seed _ _ st) by done.
  unfold bind. rewrite (get_documents_available _ _ _ _ _ (seeded_available _ _ Hav)).
  rewrite comprehension_lift, advance_advance. done.
Qed.

(** The read handlers have no [try]: when the store cannot be reached the
    first count query of the seed check raises, no handler catches it,
    every listing and detail endpoint answers 500, and nothing has been
    written or queried. *)
Theorem read_handlers_propagate_outage {parse_datetime : string -> option Z}
    (w : World) (st : Store) (msg : string) :
  db w = Some st -> outage st = Some msg ->
  ensure_seed_data w = (Raise (DriverError msg), w)
  /\ (forall tag, list_projects tag w = (Raise (DriverError msg), w)
                  /\ GET_api_projects tag w = (Http500, w))
  /\ (forall slug, get_project slug w = (Raise (DriverError msg), w)
                   /\ GET_api_project slug w = (Http500, w))
  /\ (forall tag, list_posts parse_datetime tag w = (Raise (DriverError msg), w)
                  /\ GET_api_posts parse_datetime tag w = (Http500, w))
  /\ (forall slug, get_post parse_datetime slug w = (Raise (DriverError msg), w)
                   /\ GET_api_post parse_datetime slug w = (Http500, w)).
Proof.
  intros Hdb Hout.
  pose proof (ensure_seed_data_outage w st msg Hdb Hout) as Hseed.
  split; [done|].
  repeat split.
  - unfold list_projects. by apply after_seed_raise.
  - unfold GET_api_projects, serve, list_projects.
    by rewrite (after_seed_raise _ _ _ Hseed).
  - unfold get_project. by apply after_seed_raise.
  - unfold GET_api_project, serve, get_project.
    by rewrite (after_seed_raise _ _ _ Hseed).
  - unfold list_posts. by apply after_seed_raise.
  - unfold GET_api_posts, serve, list_posts.
    by rewrite (after_seed_raise _ _ _ Hseed).
  - unfold get_post. by apply after_seed_raise.
  - unfold GET_api_post, serve, get_post.
    by rewrite (after_seed_raise _ _ _ Hseed).
Qed.

Lemma read_handlers_propagate_outage_witness :
  GET_api_projects None unreachable_world = (Http500, unreachable_world)
  /\ GET_api_post sample_parse_datetime "low-latency-notes" unreachable_world
     = (Http500, unreachable_world).
Proof.
  destruct (read_handlers_propagate_outage (parse_datetime := sample_parse_datetime)
      unreachable_world
              {| colls := ∅; next_id := 0; db_name := AttrValue "portfolio";
                 outage := Some "localhost:27017: [Errno 111] Connection refused" |}
              "localhost:27017: [Errno 111] Connection refused"
              eq_refl eq_refl) as (_ & Hlist & _ & _ & Hpost).
  split; [apply Hlist | apply Hpost].
Defined.

(** ** What the read handlers share *)

Lemma get_documents_none c q lim w :
  db w = None -> get_documents c q lim w = (Raise DatabaseNotAvailable, w).
Proof. intros H. unfold get_documents. by rewrite H. Qed.

Lemma read_handler_intro {A} (k : M A) (F : Store -> result A) c q lim :
  (forall w st, available w st ->
     k w = (F st, advance w st [OpFind c q lim])) ->
  (forall w, db w = None -> k w = (Raise DatabaseNotAvailable, w)) ->
  read_handler (ensure_seed_data ;;; k) F (OpFind c q lim).
Proof.
  intros Hav Hnone. repeat split.
  - intros w st Hw. rewrite (after_seed _ _ st) by done.
    rewrite (Hav _ _ (seeded_available _ _ Hw)). by rewrite advance_advance.
  - intros w st msg Hdb Hout. apply after_seed_raise.
    by apply (ensure_seed_data_outage _ st).
  - intros w Hdb. unfold bind. rewrite ensure_seed_data_none by done.
    by apply Hnone.
Qed.

Lemma list_projects_read tag :
  read_handler (list_projects tag)
    (fun st => collect project_response
                 (List.filter (doc_matches (tag_filter tag)) (records st "project")))
    (OpFind "project" (tag_filter tag) None).
Proof.
  apply read_handler_intro.
  - intros w st Hav. unfold bind.
    rewrite (get_documents_available _ st) by done.
    by rewrite comprehension_lift.
  - intros w Hdb. unfold bind. by rewrite get_documents_none.
Qed.

Lemma list_posts_read {parse_datetime : string -> option Z} tag :
  read_handler (list_posts parse_datetime tag)
    (fun st => collect (post_response parse_datetime)
                 (List.filter (doc_matches (tag_filter tag)) (records st "post")))
    (OpFind "post" (tag_filter tag) None).
Proof.
  apply read_handler_intro.
  - intros w st Hav. unfold bind.
    rewrite (get_documents_available _ st) by done.
    by rewrite comprehension_lift.
  - intros w Hdb. unfold bind. by rewrite get_documents_none.
Qed.

Lemma get_project_read slug :
  read_handler (get_project slug)
    (fun st =>
       match take 1 (List.filter (doc_matches {[ "slug" := slug ]})
                       (records st "project")) with
       | [] => Raise (HTTPException 404 "Project not found")
       | p :: _ => project_response p
       end)
    (OpFind "project" {[ "slug" := slug ]} (Some 1)).
Proof.
  apply read_handler_intro.
  - intros w st Hav. unfold bind.
    rewrite (get_documents_available _ st) by done.
    simpl. by destruct (take 1 _).
  - intros w Hdb. unfold bind. by rewrite get_documents_none.
Qed.

Lemma get_post_read {parse_datetime : string -> option Z} slug :
  read_handler (get_post parse_datetime slug)
    (fun st =>
       match take 1 (List.filter (doc_matches {[ "slug" := slug ]})
                       (records st "post")) with
       | [] => Raise (HTTPException 404 "Post not found")
       | po :: _ => post_response parse_datetime po
       end)
    (OpFind "post" {[ "slug" := slug ]} (Some 1)).
Proof.
  apply read_handler_intro.
  - intros w st Hav. unfold bind.
    rewrite (get_documents_available _ st) by done.
    simpl. by destruct (take 1 _).
  - intros w Hdb. unfold bind. by rewrite get_documents_none.
Qed.

Lemma read_handler_db {A} (h : M A) F find w :
  read_handler h F find -> db (h w).2 = after_seed_db w.
Proof.
  intros (Hav & Hout & Hnone). unfold after_seed_db.
  destruct (db w) as [st|] eqn:Hdb; [destruct (outage st) as [msg|] eqn:Ho|].
  - rewrite (Hout w st msg) by done. done.
  - by rewrite (Hav w st).
  - by rewrite (Hnone w).
Qed.

Lemma seeded_store_other st now c :
  c <> "project" -> c <> "post" ->
  coll_docs (seeded_store st now) c = coll_docs st c.
Proof.
  intros Hp Hq. unfold seeded_store.
  repeat case_match; rewrite ?coll_docs_insert_all_ne by done; done.
Qed.

Lemma after_seed_db_other w w' c :
  c <> "project" -> c <> "post" ->
  db w' = after_seed_db w -> world_docs w' c = world_docs w c.
Proof.
  intros Hp Hq Hdb. unfold world_docs. rewrite Hdb. unfold after_seed_db.
  destruct (db w) as [st|]; [|done].
  destruct (outage st); [done|]. by apply seeded_store_other.
Qed.

Lemma ensure_seed_data_db w : db (ensure_seed_data w).2 = after_seed_db w.
Proof.
  unfold after_seed_db.
  destruct (db w) as [st|] eqn:Hdb; [destruct (outage st) as [msg|] eqn:Ho|].
  - by rewrite (ensure_seed_data_outage w st msg).
  - by rewrite (ensure_seed_data_available w st).
  - by rewrite ensure_seed_data_none.
Qed.

(** The seed routine and the four read handlers write to [project] and
    [post] only: any other collection, [contactmessage] in particular, is
    the same after the call as before, in every world. *)
Theorem reads_keep_other_collections {parse_datetime : string -> option Z}
    (c : string) :
  c <> "project" -> c <> "post" ->
  (forall w, world_docs (ensure_seed_data w).2 c = world_docs w c)
  /\ reads_keep parse_datetime c.
Proof.
  intros Hp Hq. split.
  - intros w. apply after_seed_db_other; [done..|]. apply ensure_seed_data_db.
  - intros w. repeat split; intros x; apply after_seed_db_other; try done.
    + eapply read_handler_db, list_projects_read.
    + eapply read_handler_db, get_project_read.
    + eapply read_handler_db, list_posts_read.
    + eapply read_handler_db, get_post_read.
Qed.

Lemma reads_keep_other_collections_witness :
  length (world_docs contacted_world "contactmessage") = 1
  /\ world_docs (list_projects None contacted_world).2 "contactmessage"
     = world_docs contacted_world "contactmessage".
Proof.
  split; [vm_compute; reflexivity|].
  destruct (reads_keep_other_collections (parse_datetime := sample_parse_datetime)
      "contactmessage") as [_ H];
    [discriminate | discriminate |].
  apply (H contacted_world).
Defined.

(** ** Repeated reads *)

Lemma seeded_store_fixed st now now' :
  seeded_store (seeded_store st now) now' = seeded_store st now.
Proof.
  apply seeded_store_unseeded; apply seeded_store_nonempty; [by left | by right].
Qed.

Lemma read_handler_repeat {A} (h : M A) F find w w2 :
  read_handler h F find ->
  db w2 = after_seed_db w ->
  (h w2).1 = (h w).1 /\ db (h w2).2 = db w2.
Proof.
  intros (Hav & Hout & Hnone). unfold after_seed_db.
  destruct (db w) as [st|] eqn:Hdb; [destruct (outage st) as [msg|] eqn:Ho|];
    intros Hdb2.
  - by rewrite (Hout w st msg), (Hout w2 st msg).
  - rewrite (Hav w st) by done.
    rewrite (Hav w2 (seeded_store st (utcnow w)))
      by (split; [done | by rewrite seeded_store_outage]).
    cbn [fst snd advance db]. by rewrite seeded_store_fixed.
  - by rewrite (Hnone w), (Hnone w2).
Qed.

(** Seeding happens before the first answer is computed, so a read
    endpoint answers the same on the store an earlier read request (or
    the seed routine) left behind as it does on the store before that
    request, whatever the clock shows by then, and it does not change
    that store again. *)
Theorem reads_repeatable {parse_datetime : string -> option Z} (w w2 : World) :
  db w2 = after_seed_db w ->
  (forall tag, (list_projects tag w2).1 = (list_projects tag w).1
               /\ db (list_projects tag w2).2 = db w2)
  /\ (forall slug, (get_project slug w2).1 = (get_project slug w).1
                   /\ db (get_project slug w2).2 = db w2)
  /\ (forall tag, (list_posts parse_datetime tag w2).1 = (list_posts parse_datetime tag w).1
                  /\ db (list_posts parse_datetime tag w2).2 = db w2)
  /\ (forall slug, (get_post parse_datetime slug w2).1 = (get_post parse_datetime slug w).1
                   /\ db (get_post parse_datetime slug w2).2 = db w2).
Proof.
  intros Hdb.
  split; [|split; [|split]]; intros x.
  - apply (read_handler_repeat _ _ _ w w2 (list_projects_read x) Hdb).
  - apply (read_handler_repeat _ _ _ w w2 (get_project_read x) Hdb).
  - apply (read_handler_repeat _ _ _ w w2 (list_posts_read x) Hdb).
  - apply (read_handler_repeat _ _ _ w w2 (get_post_read x) Hdb).
Qed.

Lemma reads_repeatable_witness :
  (list_projects (Some "Infra") seeded_world).1
  = (list_projects (Some "Infra") fresh_world).1
  /\ db (get_project "vector-search" seeded_world).2 = db seeded_world.
Proof.
  destruct (reads_repeatable (parse_datetime := sample_parse_datetime)
      fresh_world seeded_world) as (Hlist & Hget & _).
  - vm_compute. reflexivity.
  - split; [apply Hlist | apply Hget].
Defined.

(** ** What a returned response tells about the request *)

Lemma take_one_filter_head {A} (f : A -> bool) (l : list A) x xs :
  take 1 (List.filter f l) = x :: xs ->
  f x = true /\ exists l1 l2, l = l1 ++ x :: l2 /\ Forall (fun d => f d = false) l1.
Proof.
  induction l as [|y l IH]; simpl; [done|].
  destruct (f y) eqn:Hy.
  - simpl. intros [= <- _]. split; [done|]. exists [], l. by split.
  - intros H. destruct (IH H) as (Hx & l1 & l2 & -> & Hall).
    split; [done|]. exists (y :: l1), l2. split; [done|]. by constructor.
Qed.

Lemma ProjectResponse_new_slug t s d tg sk im cv gh dm ft r :
  ProjectResponse_new t s d tg sk im cv gh dm ft = Ok r ->
  as_str t = Some (pr_title r) /\ as_str s = Some (pr_slug r)
  /\ as_str d = Some (pr_description r).
Proof.
  intros H. unfold ProjectResponse_new, validated in *.
  destruct (as_str t); simpl in *; [|discriminate H].
  destruct (as_str s); simpl in *; [|discriminate H].
  destruct (as_str d); simpl in *; [|discriminate H].
  destruct (as_str_list tg); simpl in *; [|discriminate H].
  destruct (as_str_list sk); simpl in *; [|discriminate H].
  destruct (as_opt_str im); simpl in *; [|discriminate H].
  destruct (as_opt_str cv); simpl in *; [|discriminate H].
  destruct (as_opt_str gh); simpl in *; [|discriminate H].
  destruct (as_opt_str dm); simpl in *; [|discriminate H].
  destruct (as_bool ft); simpl in *; [|discriminate H].
  by injection H as <-.
Qed.

Lemma PostResponse_new_fields {parse_datetime : string -> option Z} t s ex ct tg pa r :
  PostResponse_new parse_datetime t s ex ct tg pa = Ok r ->
  as_str t = Some (po_title r) /\ as_str s = Some (po_slug r)
  /\ as_opt_str ex = Some (po_excerpt r) /\ as_str ct = Some (po_content r)
  /\ as_str_list tg = Some (po_tags r)
  /\ as_opt_datetime parse_datetime pa = Some (po_published_at r).
Proof.
  intros H. unfold PostResponse_new, validated in *.
  destruct (as_str t); simpl in *; [|discriminate H].
  destruct (as_str s); simpl in *; [|discriminate H].
  destruct (as_opt_str ex); simpl in *; [|discriminate H].
  destruct (as_str ct); simpl in *; [|discriminate H].
  destruct (as_str_list tg); simpl in *; [|discriminate H].
  destruct (as_opt_datetime parse_datetime pa); simpl in *; [|discriminate H].
  by injection H as <-.
Qed.

Lemma as_str_Some v s : as_str v = Some s -> v = VStr s.
Proof. destruct v; try done. by intros [= ->]. Qed.

Lemma slug_query_string slug (d : fieldmap) s :
  doc_matches {[ "slug" := slug ]} d = true ->
  as_str (py_get d "slug") = Some s -> s = slug.
Proof.
  rewrite doc_matches_singleton. unfold py_get.
  destruct (d !! "slug") as [v|]; [|done]. simpl.
  intros Hm Hs. apply as_str_Some in Hs. subst v. simpl in Hm.
  by apply bool_decide_eq_true in Hm.
Qed.

Lemma read_handler_Ok {A} (h : M A) F find w a :
  read_handler h F find -> (h w).1 = Ok a ->
  exists st, available w st /\ F (seeded_store st (utcnow w)) = Ok a.
Proof.
  intros (Hav & Hout & Hnone) H.
  destruct (db w) as [st|] eqn:Hdb; [destruct (outage st) as [msg|] eqn:Ho|].
  - by rewrite (Hout w st msg) in H.
  - exists st. split; [done|]. by rewrite (Hav w st) in H.
  - by rewrite (Hnone w) in H.
Qed.

(** A detail endpoint that returns a record returns one whose [slug] is
    the slug that was asked for, in every world. *)
Theorem detail_returns_requested_slug {parse_datetime : string -> option Z}
    (slug : string) (w : World) :
  (forall r, (get_project slug w).1 = Ok r -> pr_slug r = slug)
  /\ (forall r, (get_post parse_datetime slug w).1 = Ok r -> po_slug r = slug).
Proof.
  split; intros r H.
  - destruct (read_handler_Ok _ _ _ _ _ (get_project_read slug) H) as (st & _ & HF).
    simpl in HF. destruct (take 1 _) as [|p rest] eqn:Htake; [done|].
    apply take_one_filter_head in Htake as [Hm _].
    apply ProjectResponse_new_slug in HF as (_ & Hs & _).
    by apply (slug_query_string slug p).
  - destruct (read_handler_Ok _ _ _ _ _ (get_post_read slug) H) as (st & _ & HF).
    simpl in HF. destruct (take 1 _) as [|p rest] eqn:Htake; [done|].
    apply take_one_filter_head in Htake as [Hm _].
    apply PostResponse_new_fields in HF as (_ & Hs & _).
    by apply (slug_query_string slug p).
Qed.

Lemma detail_returns_requested_slug_witness :
  exists r, (get_project "code-review-bot" fresh_world).1 = Ok r
            /\ pr_slug r = "code-review-bot".
Proof.
  eexists. split; [vm_compute; reflexivity|].
  apply (detail_returns_requested_slug (parse_datetime := sample_parse_datetime)
      "code-review-bot" fresh_world).
  vm_compute. reflexivity.
Defined.

Lemma collect_Ok_Forall2 {A B} (f : A -> result B) l rs :
  collect f l = Ok rs -> Forall2 (fun d r => f d = Ok r) l rs.
Proof.
  revert rs. induction l as [|x l IH]; simpl; intros rs H.
  - injection H as <-. constructor.
  - destruct (f x) as [y|] eqn:Hx; [|done].
    destruct (collect f l) as [ys|]; [|done].
    injection H as <-. constructor; [done | by apply IH].
Qed.

Lemma Forall_filter_true {A} (f : A -> bool) (l : list A) :
  Forall (fun x => f x = true) (List.filter f l).
Proof.
  induction l as [|x l IH]; simpl; [constructor|].
  destruct (f x) eqn:Hx; [by constructor | done].
Qed.

Lemma as_str_list_member X vs l :
  mapM as_str vs = Some l -> existsb (is_str X) vs = true -> X ∈ l.
Proof.
  revert l. induction vs as [|v vs IH]; intros l Hl Hex; [done|].
  simpl in Hl. destruct (as_str v) as [s|] eqn:Hs; simpl in Hl; [|done].
  destruct (mapM as_str vs) as [l'|]; simpl in Hl; [|done].
  injection Hl as <-. simpl in Hex.
  apply orb_true_iff in Hex as [Hv | Hex].
  - apply as_str_Some in Hs. subst v. simpl in Hv.
    apply bool_decide_eq_true in Hv. subst. by left.
  - right. by apply IH.
Qed.

Lemma tag_query_member X (d : fieldmap) l :
  doc_matches {[ "tags" := X ]} d = true ->
  as_str_list (py_get_default d "tags" (VList [])) = Some l -> X ∈ l.
Proof.
  rewrite doc_matches_singleton. unfold py_get_default.
  destruct (d !! "tags") as [v|]; [|done]. simpl.
  destruct v; try done. simpl. intros Hm Hl. by apply (as_str_list_member X l0).
Qed.

Lemma Forall2_filter_tags {A} (f : fieldmap -> result A) (tags : A -> list string)
    X l rs :
  (forall d r, f d = Ok r ->
     as_str_list (py_get_default d "tags" (VList [])) = Some (tags r)) ->
  Forall (fun d => doc_matches {[ "tags" := X ]} d = true) l ->
  Forall2 (fun d r => f d = Ok r) l rs ->
  Forall (fun r => X ∈ tags r) rs.
Proof.
  intros Hf Hm H2. induction H2 as [|d r l rs Hd _ IH]; [constructor|].
  inversion Hm; subst. constructor; [|by apply IH].
  eapply tag_query_member; [done|]. by apply Hf.
Qed.

(** Whatever the store holds: when a listing asked for a non-empty tag
    [X] returns, every record in the answer has [X] among its tags. *)
Theorem listing_answers_carry_tag {parse_datetime : string -> option Z}
    (X : string) (w : World) :
  X <> "" ->
  (forall rs, (list_projects (Some X) w).1 = Ok rs ->
              Forall (fun r => X ∈ pr_tags r) rs)
  /\ (forall rs, (list_posts parse_datetime (Some X) w).1 = Ok rs ->
                 Forall (fun r => X ∈ po_tags r) rs).
Proof.
  intros HX. split; intros rs H.
  - destruct (read_handler_Ok _ _ _ _ _ (list_projects_read (Some X)) H)
      as (st & _ & HF).
    simpl in HF. rewrite tag_filter_nonempty in HF by done.
    apply collect_Ok_Forall2 in HF.
    eapply (Forall2_filter_tags project_response pr_tags);
      [|apply Forall_filter_true|exact HF].
    intros d r Hr. by apply ProjectResponse_new_fields in Hr as (? & _).
  - destruct (read_handler_Ok _ _ _ _ _ (list_posts_read (Some X)) H)
      as (st & _ & HF).
    simpl in HF. rewrite tag_filter_nonempty in HF by done.
    apply collect_Ok_Forall2 in HF.
    eapply (Forall2_filter_tags (post_response parse_datetime) po_tags);
      [|apply Forall_filter_true|exact HF].
    intros d r Hr. by apply PostResponse_new_fields in Hr as (_ & _ & _ & _ & ? & _).
Qed.

Lemma listing_answers_carry_tag_witness :
  exists rs, (list_projects (Some "Infra") fresh_world).1 = Ok rs
             /\ length rs = 2
             /\ Forall (fun r => "Infra" ∈ pr_tags r) rs.
Proof.
  eexists. split; [vm_compute; reflexivity|]. split; [reflexivity|].
  apply (listing_answers_carry_tag (parse_datetime := sample_parse_datetime)
      "Infra" fresh_world); [discriminate|].
  vm_compute. reflexivity.
Defined.

Lemma Forall2_elem_l {A B} (R : A -> B -> Prop) l rs x :
  Forall2 R l rs -> x ∈ l -> exists r, r ∈ rs /\ R x r.
Proof.
  induction 1 as [|d r l rs Hd _ IH]; intros Hx.
  - by apply elem_of_nil in Hx.
  - apply elem_of_cons in Hx as [-> | Hx].
    + exists r. split; [by left | done].
    + destruct (IH Hx) as (r' & Hr' & HR). exists r'. split; [by right | done].
Qed.

(** The detail and listing endpoints agree: in one and the same world, a
    record returned by [GET /api/projects/{slug}] is among the records
    returned by [GET /api/projects] when that listing succeeds; likewise
    for posts. *)
Theorem detail_is_listed {parse_datetime : string -> option Z}
    (slug : string) (w : World) :
  (forall r rs, (get_project slug w).1 = Ok r ->
                (list_projects None w).1 = Ok rs -> r ∈ rs)
  /\ (forall r rs, (get_post parse_datetime slug w).1 = Ok r ->
                   (list_posts parse_datetime None w).1 = Ok rs -> r ∈ rs).
Proof.
  split; intros r rs Hget Hlist.
  - destruct (read_handler_Ok _ _ _ _ _ (get_project_read slug) Hget)
      as (st & Hav & HF).
    destruct (read_handler_Ok _ _ _ _ _ (list_projects_read None) Hlist)
      as (st' & Hav' & HL).
    assert (st' = st) as -> by (destruct Hav, Hav'; congruence).
    simpl in HF, HL. rewrite filter_all in HL by apply doc_matches_empty.
    destruct (take 1 _) as [|p rest] eqn:Htake; [done|].
    apply take_one_filter_head in Htake as (_ & l1 & l2 & Hl & _).
    apply collect_Ok_Forall2 in HL.
    destruct (Forall2_elem_l _ _ _ p HL) as (r' & Hin & Hr').
    { rewrite Hl. apply elem_of_app. right. by left. }
    congruence.
  - destruct (read_handler_Ok _ _ _ _ _ (get_post_read slug) Hget)
      as (st & Hav & HF).
    destruct (read_handler_Ok _ _ _ _ _ (list_posts_read None) Hlist)
      as (st' & Hav' & HL).
    assert (st' = st) as -> by (destruct Hav, Hav'; congruence).
    simpl in HF, HL. rewrite filter_all in HL by apply doc_matches_empty.
    destruct (take 1 _) as [|p rest] eqn:Htake; [done|].
    apply take_one_filter_head in Htake as (_ & l1 & l2 & Hl & _).
    apply collect_Ok_Forall2 in HL.
    destruct (Forall2_elem_l _ _ _ p HL) as (r' & Hin & Hr').
    { rewrite Hl. apply elem_of_app. right. by left. }
    congruence.
Qed.

Lemma detail_is_listed_witness :
  exists r rs, (get_post sample_parse_datetime "low-latency-notes" fresh_world).1 = Ok r
               /\ (list_posts sample_parse_datetime None fresh_world).1 = Ok rs /\ r ∈ rs.
Proof.
  do 2 eexists. split; [vm_compute; reflexivity|]. split; [vm_compute; reflexivity|].
  apply (detail_is_listed (parse_datetime := sample_parse_datetime)
      "low-latency-notes" fresh_world);
    vm_compute; reflexivity.
Defined.

(** ** Duplicate slugs and malformed records *)

Lemma take_one_filter_first {A} (f : A -> bool) (l1 l2 : list A) d :
  Forall (fun x => f x = false) l1 -> f d = true ->
  take 1 (List.filter f (l1 ++ d :: l2)) = [d].
Proof.
  intros Hl1 Hd. induction Hl1 as [|x l1 Hx _ IH]; simpl.
  - rewrite Hd. simpl. by rewrite take_0.
  - by rewrite Hx.
Qed.

Lemma seeded_store_records_nonempty st now c :
  c = "project" \/ c = "post" ->
  records st c <> [] -> records (seeded_store st now) c = records st c.
Proof.
  intros Hc Hne.
  assert (is_empty st c = false) as He.
  { apply not_true_is_false. by rewrite is_empty_records. }
  destruct Hc as [-> | ->].
  - by rewrite seeded_store_projects, He.
  - by rewrite seeded_store_posts, He.
Qed.

(** Slugs are not checked for uniqueness, and the lookup asks for one
    record: when several stored records carry the slug, the detail
    endpoints answer with the one stored first. *)
Theorem detail_first_match_wins {parse_datetime : string -> option Z}
    (slug : string) (w : World) (st : Store)
    (l1 l2 : list fieldmap) (d : fieldmap) :
  available w st ->
  no_match {[ "slug" := slug ]} l1 ->
  doc_matches {[ "slug" := slug ]} d = true ->
  (records st "project" = l1 ++ d :: l2 ->
     (get_project slug w).1 = project_response d)
  /\ (records st "post" = l1 ++ d :: l2 ->
        (get_post parse_datetime slug w).1 = post_response parse_datetime d).
Proof.
  intros Hav Hno Hd. split; intros Hrec.
  - rewrite (get_project_available _ _ st) by done. cbv zeta. cbn [fst].
    rewrite seeded_store_records_nonempty;
      [|by left|rewrite Hrec; by destruct l1].
    by rewrite Hrec, take_one_filter_first.
  - rewrite (get_post_available _ _ st) by done. cbv zeta. cbn [fst].
    rewrite seeded_store_records_nonempty;
      [|by right|rewrite Hrec; by destruct l1].
    by rewrite Hrec, take_one_filter_first.
Qed.

Lemma detail_first_match_wins_witness :
  exists r, (get_project "twin" twin_world).1 = Ok r /\ pr_title r = "First".
Proof.
  destruct (detail_first_match_wins (parse_datetime := sample_parse_datetime)
      "twin" twin_world twin_store [] [twin_b] twin_a)
    as [H _].
  - split; reflexivity.
  - constructor.
  - vm_compute. reflexivity.
  - eexists. split.
    + rewrite H by (vm_compute; reflexivity). vm_compute. reflexivity.
    + reflexivity.
Defined.

Lemma project_response_cases d :
  normalizable d \/ project_response d = Raise (ValidationError "ProjectResponse").
Proof.
  unfold normalizable, project_response, ProjectResponse_new, validated.
  case_match; [left; by eexists | by right].
Qed.

Lemma collect_Raise {A B} (f : A -> result B) (l : list A) x e :
  (forall y e', f y = Raise e' -> e' = e) ->
  x ∈ l -> f x = Raise e -> collect f l = Raise e.
Proof.
  intros Hone Hx Hfx. induction l as [|y l IH]; [by apply elem_of_nil in Hx|].
  simpl. destruct (f y) as [b|e'] eqn:Hy.
  - apply elem_of_cons in Hx as [-> | Hx]; [congruence|].
    by rewrite (IH Hx).
  - by rewrite (Hone _ _ Hy).
Qed.

Lemma elem_of_filter_bool {A} (f : A -> bool) (l : list A) x :
  x ∈ l -> f x = true -> x ∈ List.filter f l.
Proof.
  intros Hx Hf. apply list_elem_of_In, filter_In.
  split; [by apply list_elem_of_In | done].
Qed.

Lemma list_projects_malformed (tag : option string) (w : World)
    (st : Store) (d : fieldmap) :
  available w st ->
  d ∈ records st "project" ->
  doc_matches (tag_filter tag) d = true ->
  ~ normalizable d ->
  (list_projects tag w).1 = Raise (ValidationError "ProjectResponse")
  /\ (GET_api_projects tag w).1 = Http500.
Proof.
  intros Hav Hd Hm Hbad.
  assert ((list_projects tag w).1 = Raise (ValidationError "ProjectResponse")) as H.
  { rewrite (list_projects_available _ _ st) by done. cbv zeta. cbn [fst].
    rewrite seeded_store_records_nonempty;
      [|by left|intros E; rewrite E in Hd; by apply elem_of_nil in Hd].
    apply (collect_Raise _ _ d).
    - intros y e' Hy. destruct (project_response_cases y) as [[r Hr] | Hr]; congruence.
    - by apply elem_of_filter_bool.
    - by destruct (project_response_cases d). }
  split; [done|].
  unfold GET_api_projects, serve. destruct (list_projects tag w) as [r w'].
  simpl in H. by rewrite H.
Qed.

(** The listing shapes every selected record before it answers: one
    stored project that the tag selects and that cannot be shaped (a
    missing title, say) makes the whole listing fail with a validation
    error, answered as 500, instead of being skipped. *)
Theorem listing_fails_on_malformed_record (tag : option string) (w : World)
    (st : Store) (d : fieldmap) :
  available w st ->
  d ∈ records st "project" ->
  doc_matches (tag_filter tag) d = true ->
  ~ normalizable d ->
  (list_projects tag w).1 = Raise (ValidationError "ProjectResponse")
  /\ (GET_api_projects tag w).1 = Http500.
Proof. apply list_projects_malformed. Qed.

Lemma listing_fails_on_malformed_record_witness :
  (GET_api_projects None poisoned_world).1 = Http500
  /\ exists rs, (GET_api_projects (Some "AI") poisoned_world).1 = Http200 rs.
Proof.
  split.
  - apply (listing_fails_on_malformed_record None poisoned_world poisoned_store untitled).
    + split; reflexivity.
    + right. left.
    + vm_compute. reflexivity.
    + intros [r Hr]. vm_compute in Hr. discriminate.
  - eexists. vm_compute. reflexivity.
Defined.

(** ** More on the diagnostics endpoint *)

#[local] Set Warnings "-clear-no-such-hyp".

(** The diagnostics handler only looks: the store, the environment and
    the clock are the same after the call, the only store operation it
    can carry out is one listing of collection names, and the
    [collections] field never has more than ten names: the first ten of
    the store's on a healthy store, none otherwise. *)
Theorem test_database_read_only (w : World) :
  exists response w',
    test_database w = (Ok response, w')
    /\ db w' = db w
    /\ env_DATABASE_URL w' = env_DATABASE_URL w
    /\ utcnow w' = utcnow w
    /\ (trace w' = trace w \/ trace w' = trace w ++ [OpListCollections])
    /\ length (collections response) <= 10
    /\ (healthy w = false -> collections response = [])
    /\ (forall st, db w = Some st -> healthy w = true ->
                   collections response = take 10 (collection_names st)).
Proof.
  destruct w as [[[cs nid nm out]|] url now tr];
    [destruct nm as [|name|msg]; destruct out as [m|]|];
    (do 2 eexists; split; [reflexivity|]; cbn -[take];
     split; [done|]; split; [done|]; split; [done|];
     split; [first [by left | by right]|];
     split; [rewrite ?length_take; lia|];
     split; [done|];
     intros st' Hst Hh; first [discriminate Hst | discriminate Hh | idtac];
     injection Hst as <-; reflexivity).
Qed.

(** The order of the assignments in the handler decides what the other
    fields say.  [connection_status] reads [Connected] as soon as the
    handle exists and its name can be read, also when the store cannot
    be reached; [database_url] is filled exactly when the handle exists
    and says [Set] exactly when [DATABASE_URL] is a non-empty string;
    [database_name] is filled exactly when the name could be read. *)
Theorem test_database_status_fields (w : World) :
  exists response w',
    test_database w = (Ok response, w')
    /\ backend response = "✅ Running"
    /\ (connection_status response = "Connected"
        <-> exists st, db w = Some st /\ name_readable st = true)
    /\ (connection_status response = "Not Connected"
        <-> ~ exists st, db w = Some st /\ name_readable st = true)
    /\ (database_url response = None <-> db w = None)
    /\ (database_url response = Some "✅ Set"
        <-> db w <> None /\ opt_str_truthy (env_DATABASE_URL w) = true)
    /\ (is_Some (database_name response)
        <-> exists st, db w = Some st /\ name_readable st = true).
Proof.
  destruct w as [[[cs nid nm out]|] url now tr];
    [destruct nm as [|name|msg]; destruct out as [m|]|];
    (do 2 eexists; split; [reflexivity|]; cbn -[take];
     destruct (opt_str_truthy url); naive_solver).
Qed.


Example connected_yet_unreachable :
  exists response,
    (test_database unreachable_world).1 = Ok response
    /\ connection_status response = "Connected"
    /\ error_indicator (database response) = true.
Proof. eexists. split; [vm_compute; reflexivity|]. split; reflexivity. Qed.

(** ** Stored models and response models *)

Lemma as_opt_datetime_of_opt_datetime {parse_datetime : string -> option Z} o :
  as_opt_datetime parse_datetime (of_opt_datetime o) = Some o.
Proof. by destruct o. Qed.

Lemma post_response_dict {parse_datetime : string -> option Z} b :
  post_response parse_datetime (Post_dict b) = Ok (response_of_post b).
Proof.
  destruct b as [t s ex ct tg pa].
  unfold post_response, PostResponse_new, py_get, py_get_default,
    Post_dict, response_of_post.
  cbn [b_title b_slug b_excerpt b_content b_tags b_published_at].
  remember (of_str_list tg) as vtg eqn:Htg.
  remember (of_opt_str ex) as vex eqn:Hex.
  remember (of_opt_datetime pa) as vpa eqn:Hpa.
  repeat match goal with
         | |- context [ @lookup _ _ _ _ ?k ?m ] =>
             let v := eval vm_compute in (m !! k) in
             change (m !! k) with v
         end.
  simpl. subst vex.
  rewrite as_opt_str_of_opt_str. simpl. subst vtg.
  rewrite as_str_list_of_str_list. simpl. subst vpa.
  by rewrite as_opt_datetime_of_opt_datetime.
Qed.

(** The stored models of [schemas.py] and the response models of
    [main.py] fit: the field map of every [Project] is shaped into a
    [ProjectResponse] with the same ten fields ([case_study] and [stats]
    are not served), and the field map of every [Post] into a
    [PostResponse] with the same six fields.  No schema-valid record can
    make a read endpoint fail. *)
Theorem stored_models_are_servable {parse_datetime : string -> option Z} :
  (forall q : Project, project_response (Project_dict q) = Ok (response_of_project q))
  /\ (forall b : Post, post_response parse_datetime (Post_dict b) = Ok (response_of_post b)).
Proof. split; [apply project_response_dict | apply post_response_dict]. Qed.

(** ** Absent keys and null values *)

Lemma py_get_insert (p : fieldmap) k v f :
  py_get (<[ k := v ]> p) f = if decide (k = f) then v else py_get p f.
Proof.
  unfold py_get. case_decide as H.
  - subst. by rewrite lookup_insert_eq.
  - by rewrite lookup_insert_ne.
Qed.

Lemma py_get_default_insert (p : fieldmap) k v f dflt :
  py_get_default (<[ k := v ]> p) f dflt
  = if decide (k = f) then v else py_get_default p f dflt.
Proof.
  unfold py_get_default. case_decide as H.
  - subst. by rewrite lookup_insert_eq.
  - by rewrite lookup_insert_ne.
Qed.

Lemma py_get_absent (p : fieldmap) k : p !! k = None -> py_get p k = VNull.
Proof. unfold py_get. by intros ->. Qed.

Lemma py_get_default_absent (p : fieldmap) k dflt :
  p !! k = None -> py_get_default p k dflt = dflt.
Proof. unfold py_get_default. by intros ->. Qed.

(** A handler reads an absent key of a stored record as the default of
    its [get] call: the answer for a record without key [k] is the answer
    for the same record with that default stored under [k].  The default
    is the empty list for [tags] and [stack], false for [featured] and
    null for every other key. *)
Theorem absent_key_reads_as_default {parse_datetime : string -> option Z}
    (p : fieldmap) (k : string) :
  p !! k = None ->
  project_response p = project_response (<[ k := project_default k ]> p)
  /\ post_response parse_datetime p = post_response parse_datetime (<[ k := post_default k ]> p).
Proof.
  intros Hk. split.
  - unfold project_response.
    rewrite !py_get_insert, !py_get_default_insert.
    repeat match goal with
           | |- context [ decide (k = ?f) ] =>
               destruct (decide (k = f)) as [-> | ?];
               [by rewrite ?(py_get_absent _ _ Hk), ?(py_get_default_absent _ _ _ Hk)|]
           end.
    reflexivity.
  - unfold post_response.
    rewrite !py_get_insert, !py_get_default_insert.
    repeat match goal with
           | |- context [ decide (k = ?f) ] =>
               destruct (decide (k = f)) as [-> | ?];
               [by rewrite ?(py_get_absent _ _ Hk), ?(py_get_default_absent _ _ _ Hk)|]
           end.
    reflexivity.
Qed.

Lemma absent_key_reads_as_default_witness :
  project_response sparse_project
  = project_response (<[ "featured" := VBool false ]> sparse_project).
Proof.
  apply (absent_key_reads_as_default (parse_datetime := sample_parse_datetime)
      sparse_project "featured").
  vm_compute. reflexivity.
Defined.

Lemma project_response_tags d r :
  project_response d = Ok r ->
  as_str_list (py_get_default d "tags" (VList [])) = Some (pr_tags r)
  /\ as_str_list (py_get_default d "stack" (VList [])) = Some (pr_stack r)
  /\ as_bool (py_get_default d "featured" (VBool false)) = Some (pr_featured r).
Proof. apply ProjectResponse_new_fields. Qed.

Lemma post_response_cases {parse_datetime : string -> option Z} d :
  post_normalizable parse_datetime d \/ post_response parse_datetime d = Raise (ValidationError "PostResponse").
Proof.
  unfold post_normalizable, post_response, PostResponse_new, validated.
  case_match; [left; by eexists | by right].
Qed.

(** The default of a [get] call only stands in for an absent key.  A
    stored project that holds null under [tags], [stack] or [featured],
    or lacks [title], [slug] or [description], cannot be shaped and the
    handlers raise a validation error; the same holds for a post with
    null under [tags] or without [title], [slug] or [content]. *)
Theorem null_or_missing_required_is_rejected {parse_datetime : string -> option Z}
    (p : fieldmap) :
  (p !! "tags" = Some VNull \/ p !! "stack" = Some VNull
   \/ p !! "featured" = Some VNull \/ p !! "title" = None
   \/ p !! "slug" = None \/ p !! "description" = None ->
   project_response p = Raise (ValidationError "ProjectResponse"))
  /\ (p !! "tags" = Some VNull \/ p !! "title" = None
      \/ p !! "slug" = None \/ p !! "content" = None ->
      post_response parse_datetime p = Raise (ValidationError "PostResponse")).
Proof.
  split; intros H.
  - destruct (project_response_cases p) as [[r Hr] | Hr]; [exfalso | done].
    pose proof (ProjectResponse_new_fields _ _ _ _ _ _ _ _ _ _ _ Hr) as (Htg & Hsk & Hft).
    pose proof (ProjectResponse_new_slug _ _ _ _ _ _ _ _ _ _ _ Hr) as (Ht & Hs & Hd).
    unfold py_get, py_get_default in *.
    destruct H as [H | [H | [H | [H | [H | H]]]]]; rewrite H in *; discriminate.
  - destruct (post_response_cases (parse_datetime := parse_datetime) p) as [[r Hr] | Hr]; [exfalso | done].
    pose proof (PostResponse_new_fields _ _ _ _ _ _ _ Hr)
      as (Ht & Hs & _ & Hc & Htg & _).
    unfold py_get, py_get_default in *.
    destruct H as [H | [H | [H | H]]]; rewrite H in *; discriminate.
Qed.

Lemma null_or_missing_required_is_rejected_witness :
  project_response null_featured = Raise (ValidationError "ProjectResponse")
  /\ post_response sample_parse_datetime sparse_project = Raise (ValidationError "PostResponse")
  /\ exists r, project_response sparse_project = Ok r.
Proof.
  split; [|split].
  - apply (null_or_missing_required_is_rejected (parse_datetime := sample_parse_datetime)
      null_featured).
    right. right. left. vm_compute. reflexivity.
  - apply (null_or_missing_required_is_rejected (parse_datetime := sample_parse_datetime)
      sparse_project).
    right. right. right. vm_compute. reflexivity.
  - eexists. vm_compute. reflexivity.
Defined.

(** ** Listing posts *)

Lemma collect_all_ok {A B} (f : A -> result B) (l : list A) :
  Forall (fun d => exists r, f d = Ok r) l ->
  exists rs, collect f l = Ok rs /\ Forall2 (fun d r => f d = Ok r) l rs.
Proof.
  induction 1 as [|d l [r Hr] _ (rs & Hrs & Hall)].
  - exists []. by split; [|constructor].
  - exists (r :: rs). simpl. rewrite Hr, Hrs. split; [done|]. by constructor.
Qed.

Lemma post_tag_query_is_membership {parse_datetime : string -> option Z} X d :
  post_normalizable parse_datetime d -> doc_matches {[ "tags" := X ]} d = has_tag X d.
Proof.
  intros [r Hr]. apply PostResponse_new_fields in Hr as (_ & _ & _ & _ & Htg & _).
  rewrite doc_matches_singleton. unfold has_tag, py_get_default in *.
  destruct (d !! "tags") as [v|]; [|done]. simpl in Htg.
  apply as_str_list_shape in Htg as [vs ->]. done.
Qed.

Lemma seed_posts_normalizable {parse_datetime : string -> option Z}
    now : Forall (post_normalizable parse_datetime) (seed_posts now).
Proof.
  unfold seed_posts. apply Forall_fmap, Forall_forall. intros b _.
  exists (response_of_post b). apply post_response_dict.
Qed.


(** ** The seed check inside every read request *)

Lemma filter_fmap_insert (g : StoreOp -> bool) c (l : list fieldmap) :
  (forall f, g (OpInsert c f) = false) -> List.filter g (OpInsert c <$> l) = [].
Proof.
  intros H. induction l as [|f l IH]; [done|].
  rewrite fmap_cons. simpl. by rewrite H.
Qed.

Lemma seed_ops_pattern st now find :
  is_find find = true -> read_pattern find (seed_ops st now ++ [find]).
Proof.
  intros Hf. destruct find; try discriminate Hf.
  unfold read_pattern, seed_ops.
  repeat split.
  - rewrite !List.filter_app.
    destruct (is_empty st "project"), (is_empty st "post");
      rewrite ?filter_fmap_insert by done; reflexivity.
  - rewrite !List.filter_app.
    destruct (is_empty st "project"), (is_empty st "post");
      rewrite ?filter_fmap_insert by done; reflexivity.
  - by rewrite last_snoc.
Qed.

Lemma read_handler_trace {A} (h : M A) F find w st :
  read_handler h F find -> available w st -> is_find find = true ->
  exists ops, trace (h w).2 = trace w ++ ops /\ read_pattern find ops.
Proof.
  intros (Hav & _ & _) Hw Hf. exists (seed_ops st (utcnow w) ++ [find]).
  rewrite (Hav w st) by done. split; [done|]. by apply seed_ops_pattern.
Qed.

(** The seed check is not run once at start-up but inside every read
    request: on a reachable store each listing and detail request first
    counts [project] and [post] and carries out its one query last. *)
Theorem every_read_runs_seed_check {parse_datetime : string -> option Z}
    (w : World) (st : Store) :
  available w st ->
  (forall tag, exists ops,
       trace (list_projects tag w).2 = trace w ++ ops
       /\ read_pattern (OpFind "project" (tag_filter tag) None) ops)
  /\ (forall slug, exists ops,
         trace (get_project slug w).2 = trace w ++ ops
         /\ read_pattern (OpFind "project" {[ "slug" := slug ]} (Some 1)) ops)
  /\ (forall tag, exists ops,
         trace (list_posts parse_datetime tag w).2 = trace w ++ ops
         /\ read_pattern (OpFind "post" (tag_filter tag) None) ops)
  /\ (forall slug, exists ops,
         trace (get_post parse_datetime slug w).2 = trace w ++ ops
         /\ read_pattern (OpFind "post" {[ "slug" := slug ]} (Some 1)) ops).
Proof.
  intros Hav. split; [|split; [|split]]; intros x.
  - by apply (read_handler_trace _ _ _ w st (list_projects_read x)).
  - by apply (read_handler_trace _ _ _ w st (get_project_read x)).
  - by apply (read_handler_trace _ _ _ w st (list_posts_read x)).
  - by apply (read_handler_trace _ _ _ w st (get_post_read x)).
Qed.

Lemma every_read_runs_seed_check_witness :
  exists ops,
    trace (get_post sample_parse_datetime "low-latency-notes" seeded_world).2
    = trace seeded_world ++ ops
    /\ read_pattern (OpFind "post" {[ "slug" := "low-latency-notes" ]} (Some 1)) ops.
Proof.
  destruct (every_read_runs_seed_check (parse_datetime := sample_parse_datetime) seeded_world
              (seeded_store empty_store (utcnow fresh_world)))
    as (_ & _ & _ & H).
  - split; vm_compute; reflexivity.
  - apply H.
Defined.

(** ** Seeded records can be fetched *)

Lemma Project_dict_slug q : Project_dict q !! "slug" = Some (VStr (p_slug q)).
Proof. destruct q. reflexivity. Qed.

Lemma Post_dict_slug b : Post_dict b !! "slug" = Some (VStr (b_slug b)).
Proof. destruct b. reflexivity. Qed.

Lemma filter_fmap_bool {A B} (g : A -> B) (f : B -> bool) (l : list A) :
  List.filter f (g <$> l) = g <$> List.filter (fun x => f (g x)) l.
Proof.
  induction l as [|x l IH]; [done|].
  rewrite fmap_cons. simpl. destruct (f (g x)); by rewrite IH.
Qed.

Lemma slug_query_Project_dict slug q :
  doc_matches {[ "slug" := slug ]} (Project_dict q) = bool_decide (p_slug q = slug).
Proof. by rewrite doc_matches_singleton, Project_dict_slug. Qed.

Lemma slug_query_Post_dict slug b :
  doc_matches {[ "slug" := slug ]} (Post_dict b) = bool_decide (b_slug b = slug).
Proof. by rewrite doc_matches_singleton, Post_dict_slug. Qed.

Lemma elem_of_project_examples q :
  q ∈ project_examples ->
  take 1 (List.filter (doc_matches {[ "slug" := p_slug q ]}) seed_projects)
  = [Project_dict q].
Proof.
  intros H. unfold seed_projects. rewrite filter_fmap_bool.
  rewrite (filter_ext _ (fun x => bool_decide (p_slug x = p_slug q)))
    by (intros x; apply slug_query_Project_dict).
  rewrite <- fmap_take.
  assert (take 1 (List.filter (fun x => bool_decide (p_slug x = p_slug q))
                    project_examples) = [q]) as ->; [|done].
  unfold project_examples in *.
  repeat (apply elem_of_cons in H as [-> | H]; [reflexivity|]).
  by apply elem_of_nil in H.
Qed.

Lemma elem_of_post_examples now b :
  b ∈ post_examples now ->
  take 1 (List.filter (doc_matches {[ "slug" := b_slug b ]}) (seed_posts now))
  = [Post_dict b]
  /\ b_published_at b = Some now.
Proof.
  intros H. unfold seed_posts. rewrite filter_fmap_bool.
  rewrite (filter_ext _ (fun x => bool_decide (b_slug x = b_slug b)))
    by (intros x; apply slug_query_Post_dict).
  rewrite <- fmap_take.
  unfold post_examples in *. apply list_elem_of_singleton in H. subst b.
  split; reflexivity.
Qed.


(** ** The contact endpoint and the rest *)

Section ContactMore.

Variable validate_email : string -> option string.

Lemma create_document_unavailable c f w :
  db w = None \/ (exists st msg, db w = Some st /\ outage st = Some msg) ->
  exists e, create_document c f w = (Raise e, w)
            /\ forall code detail, e <> HTTPException code detail.
Proof.
  unfold create_document. intros [H | (st & msg & H & Ho)]; rewrite H.
  - by eexists.
  - rewrite Ho. by eexists.
Qed.

(** The contact handler has no [try] either: a body that passes
    validation is answered with 500 when the handle was never
    initialised or the store cannot be reached, and nothing is written. *)
Theorem contact_fails_without_store (body : fieldmap) (n e e' m : string)
    (w : World) :
  (forall a a', validate_email a = Some a' -> validate_email a' = Some a') ->
  body !! "name" = Some (VStr n) ->
  body !! "email" = Some (VStr e) ->
  validate_email e = Some e' ->
  body !! "message" = Some (VStr m) ->
  db w = None \/ (exists st msg, db w = Some st /\ outage st = Some msg) ->
  POST_api_contact validate_email body w = (Http500, w).
Proof.
  intros Hidem Hn He Hv Hm Hdown. unfold POST_api_contact.
  rewrite (ContactRequest_new_accepts validate_email body n e e' m) by done.
  unfold serve, submit_contact, bind, lift.
  rewrite (ContactMessage_new_payload validate_email _ e')
    by (simpl; by eapply Hidem).
  cbn [cr_name cr_email cr_message].
  destruct (create_document_unavailable "contactmessage"
              (ContactMessage_dict
                 {| cm_name := n; cm_email := e'; cm_message := m |}) w Hdown)
    as (ex & -> & Hex).
  destruct ex; try done. by destruct (Hex status_code detail).
Qed.

Lemma is_empty_insert_ne st c c' f :
  c <> c' -> is_empty (store_insert st c f) c' = is_empty st c'.
Proof. intros H. unfold is_empty. by rewrite coll_docs_insert_ne. Qed.

Lemma records_insert_ne st c c' f :
  c <> c' -> records (store_insert st c f) c' = records st c'.
Proof. intros H. unfold records. by rewrite coll_docs_insert_ne. Qed.

Lemma seeded_records_after_contact st f now c :
  c = "project" \/ c = "post" ->
  records (seeded_store (store_insert st "contactmessage" f) now) c
  = records (seeded_store st now) c.
Proof.
  intros [-> | ->].
  - rewrite !seeded_store_projects, is_empty_insert_ne, records_insert_ne; done.
  - rewrite !seeded_store_posts, is_empty_insert_ne, records_insert_ne; done.
Qed.

Lemma submit_contact_world payload w :
  (submit_contact validate_email payload w).2 = w
  \/ exists st f,
       available w st
       /\ (submit_contact validate_email payload w).2
          = advance w (store_insert st "contactmessage" f)
              [OpInsert "contactmessage" f].
Proof.
  unfold submit_contact, bind, lift.
  destruct (ContactMessage_new _ _) as [doc|e]; [|by left].
  unfold create_document.
  destruct (db w) as [st|] eqn:Hdb; [|by left].
  destruct (outage st) eqn:Ho; [by left|].
  right. by exists st, (ContactMessage_dict doc).
Qed.

Lemma POST_api_contact_world body w :
  (POST_api_contact validate_email body w).2 = w
  \/ exists st f,
       available w st
       /\ (POST_api_contact validate_email body w).2
          = advance w (store_insert st "contactmessage" f)
              [OpInsert "contactmessage" f].
Proof.
  unfold POST_api_contact.
  destruct (ContactRequest_new _ _) as [payload|e]; [|by left].
  unfold serve.
  destruct (submit_contact_world payload w) as [H | (st & f & Hav & H)].
  - left. destruct (submit_contact _ _ _). simpl in *. done.
  - right. exists st, f. split; [done|].
    destruct (submit_contact _ _ _). simpl in *. done.
Qed.

(** Contact submissions and content do not interfere: after a contact
    request, whatever its body and outcome, every listing and detail
    request is answered as it would have been before it. *)
Theorem contact_leaves_reads_alone {parse_datetime : string -> option Z}
    (body : fieldmap) (w : World) :
  reads_agree parse_datetime w (POST_api_contact validate_email body w).2.
Proof.
  destruct (POST_api_contact_world body w) as [-> | (st & f & Hav & ->)];
    [by repeat split|].
  assert (available (advance w (store_insert st "contactmessage" f)
                       [OpInsert "contactmessage" f])
            (store_insert st "contactmessage" f)) as Hav'.
  { apply available_advance. apply Hav. }
  split; [|split; [|split]]; intros x.
  - rewrite (list_projects_available _ _ _ Hav'), (list_projects_available _ _ _ Hav).
    cbv zeta. cbn [fst advance utcnow].
    by rewrite seeded_records_after_contact by by left.
  - rewrite (get_project_available _ _ _ Hav'), (get_project_available _ _ _ Hav).
    cbv zeta. cbn [fst advance utcnow].
    by rewrite seeded_records_after_contact by by left.
  - rewrite (list_posts_available _ _ _ Hav'), (list_posts_available _ _ _ Hav).
    cbv zeta. cbn [fst advance utcnow].
    by rewrite seeded_records_after_contact by by right.
  - rewrite (get_post_available _ _ _ Hav'), (get_post_available _ _ _ Hav).
    cbv zeta. cbn [fst advance utcnow].
    by rewrite seeded_records_after_contact by by right.
Qed.

End ContactMore.

Lemma contact_fails_without_store_witness :
  POST_api_contact sample_validate_email jane_body uninitialised_world
  = (Http500, uninitialised_world)
  /\ POST_api_contact sample_validate_email jane_body unreachable_world
     = (Http500, unreachable_world).
Proof.
  split.
  - apply (contact_fails_without_store sample_validate_email jane_body
             "Jane" "jane@example.com" "jane@example.com" "hi");
      [apply sample_validate_email_idem | vm_compute; reflexivity.. | by left].
  - apply (contact_fails_without_store sample_validate_email jane_body
             "Jane" "jane@example.com" "jane@example.com" "hi");
      [apply sample_validate_email_idem | vm_compute; reflexivity.. |].
    right. by do 2 eexists.
Defined.

(** ** The error text in the diagnostics payload *)

Lemma py_slice_to_prefix n s : exists rest, s = py_slice_to n s +:+ rest.
Proof.
  revert n. induction s as [|c s IH]; intros n; simpl.
  - by exists "".
  - destruct (is_continuation c).
    + destruct (IH n) as [rest Hr]. exists rest.
      change (String c s = String c (py_slice_to n s +:+ rest)). by f_equal.
    + destruct n as [|n].
      * by exists (String c s).
      * destruct (IH n) as [rest Hr]. exists rest.
        change (String c s = String c (py_slice_to n s +:+ rest)). by f_equal.
Qed.

Lemma py_slice_to_bound n s : code_points (py_slice_to n s) <= n.
Proof.
  revert n. induction s as [|c s IH]; intros n; simpl; [lia|].
  destruct (is_continuation c) eqn:Hc.
  - simpl. rewrite Hc. apply IH.
  - destruct n as [|n]; simpl; [lia|]. rewrite Hc. specialize (IH n). lia.
Qed.

Lemma py_slice_to_all n s : code_points s <= n -> py_slice_to n s = s.
Proof.
  revert n. induction s as [|c s IH]; intros n; simpl; [done|].
  destruct (is_continuation c) eqn:Hc; intros Hn.
  - by rewrite IH.
  - destruct n as [|n]; [lia|]. rewrite IH; [done | lia].
Qed.

(** When listing the collections fails, the payload quotes the error:
    the [database] field is the mark [Connected but Error: ] followed by
    a prefix of the error text of at most 80 characters, and by the whole
    text when that has no more than 80 characters. *)
Theorem test_database_quotes_error (w : World) (st : Store) (msg : string) :
  db w = Some st -> name_readable st = true -> outage st = Some msg ->
  exists response quoted rest,
    (test_database w).1 = Ok response
    /\ database response = "⚠️ Connected but Error: " +:+ quoted
    /\ msg = quoted +:+ rest
    /\ code_points quoted <= 80
    /\ (code_points msg <= 80 -> quoted = msg).
Proof.
  intros Hdb Hname Hout.
  destruct (py_slice_to_prefix 80 msg) as [rest Hrest].
  exists (set_database ("⚠️ Connected but Error: " +:+ py_slice_to 80 msg)
            (set_connection_status "Connected"
               (set_database_name
                  (Some (match db_name st with
                         | AttrValue name => name
                         | _ => "✅ Connected"
                         end))
                  (set_database_url
                     (Some (if opt_str_truthy (env_DATABASE_URL w)
                            then "✅ Set" else "❌ Not Set"))
                     (set_database "✅ Available" initial_response))))),
         (py_slice_to 80 msg), rest.
  split; [|split; [reflexivity|split; [exact Hrest|split]]].
  - destruct w as [d url now tr]. simpl in Hdb. subst d.
    destruct st as [cs nid nm out]. simpl in Hout. subst out.
    destruct nm as [|name|m]; [reflexivity | reflexivity | discriminate Hname].
  - apply py_slice_to_bound.
  - apply py_slice_to_all.
Qed.

Lemma test_database_quotes_error_witness :
  exists response quoted,
    (test_database long_outage_world).1 = Ok response
    /\ database response = "⚠️ Connected but Error: " +:+ quoted
    /\ code_points quoted <= 80.
Proof.
  destruct (test_database_quotes_error long_outage_world
              {| colls := ∅; next_id := 0; db_name := AttrValue "portfolio";
                 outage := Some ("ServerSelectionTimeoutError: localhost:27017: "
                                 +:+ "[Errno 111] Connection refused, Timeout: 30s, "
                                 +:+ "Topology Description: <TopologyDescription>") |}
              ("ServerSelectionTimeoutError: localhost:27017: "
               +:+ "[Errno 111] Connection refused, Timeout: 30s, "
               +:+ "Topology Description: <TopologyDescription>")
              eq_refl eq_refl eq_refl)
    as (response & quoted & rest & Hresp & Hdb & _ & Hlen & _).
  by exists response, quoted.
Defined.

Example long_error_is_cut :
  exists response,
    (test_database long_outage_world).1 = Ok response
    /\ database response
       = "⚠️ Connected but Error: ServerSelectionTimeoutError: localhost:27017: [Errno 111] Connection refused, Ti".
Proof. eexists. split; vm_compute; reflexivity. Qed.

(** ** A contact message can be read back *)

Section ContactRoundTrip.

Variable validate_email : string -> option string.

Lemma POST_api_contact_accepted body n e e' m w st :
  (forall a a', validate_email a = Some a' -> validate_email a' = Some a') ->
  body !! "name" = Some (VStr n) ->
  body !! "email" = Some (VStr e) ->
  validate_email e = Some e' ->
  body !! "message" = Some (VStr m) ->
  available w st ->
  (POST_api_contact validate_email body w).2
  = advance w
      (store_insert st "contactmessage"
         (ContactMessage_dict {| cm_name := n; cm_email := e'; cm_message := m |}))
      [OpInsert "contactmessage"
         (ContactMessage_dict {| cm_name := n; cm_email := e'; cm_message := m |})].
Proof.
  intros Hidem Hn He Hv Hm Hav. unfold POST_api_contact.
  rewrite (ContactRequest_new_accepts validate_email body n e e' m) by done.
  unfold serve, submit_contact, bind, lift.
  rewrite (ContactMessage_new_payload validate_email _ e')
    by (simpl; by eapply Hidem).
  by rewrite (create_document_available _ st).
Qed.

Lemma ContactMessage_dict_email msg :
  ContactMessage_dict msg !! "email" = Some (VStr (cm_email msg)).
Proof. destruct msg. reflexivity. Qed.

(** Insert and lookup compose: after an accepted contact request, a
    query of [contactmessage] by the stored address returns the new
    record last, after the earlier records with that address. *)
Theorem contact_message_is_stored (body : fieldmap) (n e e' m : string)
    (w : World) (st : Store) :
  (forall a a', validate_email a = Some a' -> validate_email a' = Some a') ->
  body !! "name" = Some (VStr n) ->
  body !! "email" = Some (VStr e) ->
  validate_email e = Some e' ->
  body !! "message" = Some (VStr m) ->
  available w st ->
  let q : gmap string string := {[ "email" := e' ]} in
  (get_documents "contactmessage" q None
     (POST_api_contact validate_email body w).2).1
  = Ok (List.filter (doc_matches q) (records st "contactmessage")
        ++ [ContactMessage_dict
              {| cm_name := n; cm_email := e'; cm_message := m |}]).
Proof.
  intros Hidem Hn He Hv Hm Hav q.
  rewrite (POST_api_contact_accepted body n e e' m w st) by done.
  rewrite (get_documents_available _ (store_insert st "contactmessage" _))
    by (apply available_advance; apply Hav).
  cbn [fst cap]. f_equal.
  unfold records. rewrite coll_docs_insert_eq, fmap_app, List.filter_app.
  f_equal. cbn [fmap list_fmap doc_fields List.filter].
  unfold q. rewrite doc_matches_singleton, ContactMessage_dict_email.
  cbn [field_matches cm_email]. by rewrite bool_decide_eq_true_2.
Qed.

End ContactRoundTrip.

Lemma contact_message_is_stored_witness :
  (get_documents "contactmessage" {[ "email" := "jane@example.com" ]} None
     contacted_world).1
  = Ok [ContactMessage_dict
          {| cm_name := "Jane"; cm_email := "jane@example.com";
             cm_message := "hi" |}].
Proof.
  apply (contact_message_is_stored sample_validate_email jane_body
           "Jane" "jane@example.com" "jane@example.com" "hi"
           fresh_world empty_store);
    [apply sample_validate_email_idem | vm_compute; reflexivity.. | split; reflexivity].
Defined.

(** * Listings and the tag parameter *)

Lemma has_tag_matches X d :
  has_tag X d = true -> doc_matches {[ "tags" := X ]} d = true.
Proof.
  rewrite doc_matches_singleton. unfold has_tag.
  by destruct (d !! "tags") as [[]|].
Qed.

Lemma elem_of_matched tag stored d :
  d ∈ matched tag stored <-> d ∈ stored /\ doc_matches (tag_filter tag) d = true.
Proof. unfold matched. by rewrite !list_elem_of_In, filter_In. Qed.

(** When every record the query matches can be shaped, the query matches
    exactly the records that have the tag in their tag list. *)
Lemma matched_is_selected {A} (f : fieldmap -> result A) tag stored :
  (forall d r X, f d = Ok r -> doc_matches {[ "tags" := X ]} d = has_tag X d) ->
  tag <> Some "" ->
  Forall (fun d => exists r, f d = Ok r) (matched tag stored) ->
  matched tag stored = selected tag stored.
Proof.
  intros Hf Htag. unfold matched. destruct tag as [X|]; cbn [selected].
  - rewrite tag_filter_nonempty by congruence.
    induction stored as [|d l IH]; [done|]. simpl.
    destruct (doc_matches {[ "tags" := X ]} d) eqn:Hm.
    + intros Hall. inversion Hall as [|? ? [r Hr] Hrest]; subst.
      rewrite <- (Hf d r X Hr), Hm. f_equal. by apply IH.
    + intros Hall.
      destruct (has_tag X d) eqn:Ht; [|by apply IH].
      apply has_tag_matches in Ht. congruence.
  - intros _. apply filter_all. intros d. apply doc_matches_empty.
Qed.

Lemma matched_after_seed (P : fieldmap -> Prop) tag st now c seeds :
  records (seeded_store st now) c
  = (if is_empty st c then seeds else records st c) ->
  Forall P seeds ->
  Forall P (matched tag (records st c)) ->
  Forall P (matched tag (records (seeded_store st now) c)).
Proof.
  intros -> Hseeds Hst. destruct (is_empty st c); [|done].
  by apply Forall_filter_bool.
Qed.

(** C2, as the code has it.  On a reachable store, for every non-empty
    string [X] (and likewise without [tag], for all records): when every
    stored project record that the tag query matches can be shaped into
    a response, [GET /api/projects?tag=X] answers with exactly the stored
    project records whose tag list has [X] among its members, in the
    store's order; when one of the matched records cannot be shaped, the
    request fails with a validation error and is answered with 500. *)
Theorem list_projects_by_tag (tag : option string) (w : World) (st : Store) :
  available w st ->
  tag <> Some "" ->
  (Forall normalizable (matched tag (records st "project")) ->
     lists_exactly tag w st)
  /\ (Exists (fun d => ~ normalizable d) (matched tag (records st "project")) ->
      (GET_api_projects tag w).1 = Http500).
Proof.
  intros Hav Htag. split.
  - intros Hnorm. unfold lists_exactly, GET_api_projects, serve.
    rewrite (list_projects_available _ _ st) by done. cbv zeta. cbn [fst].
    set (stored := records (seeded_store st (utcnow w)) "project").
    fold (matched tag stored).
    assert (Forall normalizable (matched tag stored)) as Hstored.
    { apply (matched_after_seed _ _ _ _ _ seed_projects);
        [apply seeded_store_projects | apply seed_projects_normalizable | done]. }
    destruct (collect_all_ok project_response (matched tag stored) Hstored)
      as (rs & -> & Hall).
    exists rs. split; [done|].
    rewrite <- (matched_is_selected project_response); [done| |done|done].
    intros d r X Hr. apply tag_query_is_membership. by exists r.
  - intros Hex. apply Exists_exists in Hex as (d & Hd & Hbad).
    apply elem_of_matched in Hd as [Hd Hm].
    by apply (list_projects_malformed tag w st d).
Qed.

Lemma list_projects_by_tag_witness :
  lists_exactly (Some "AI") fresh_world empty_store
  /\ lists_exactly None fresh_world empty_store
  /\ lists_exactly (Some "AI") poisoned_world poisoned_store
  /\ (GET_api_projects (Some "Web") poisoned_world).1 = Http500.
Proof.
  split; [|split; [|split]].
  - apply (list_projects_by_tag (Some "AI") fresh_world empty_store);
      [split; reflexivity | discriminate | constructor].
  - apply (list_projects_by_tag None fresh_world empty_store);
      [split; reflexivity | discriminate | constructor].
  - apply (list_projects_by_tag (Some "AI") poisoned_world poisoned_store);
      [split; reflexivity | discriminate |].
    apply Forall_forall. intros d Hd.
    apply elem_of_matched in Hd as [Hd Hm].
    apply elem_of_cons in Hd as [-> | Hd].
    + eexists. vm_compute. reflexivity.
    + apply list_elem_of_singleton in Hd. subst d. vm_compute in Hm. discriminate.
  - apply (list_projects_by_tag (Some "Web") poisoned_world poisoned_store);
      [split; reflexivity | discriminate |].
    apply Exists_exists. exists untitled. split.
    + apply elem_of_matched. split; [right; left | vm_compute; reflexivity].
    + intros [r Hr]. vm_compute in Hr. discriminate.
Defined.

(** C2 as stated fails twice.  At [X = ""], on the freshly seeded store,
    [GET /api/projects?tag=] answers with all three project records, none
    of which has the empty string among its tags.  And on a store with a
    project tagged [Web] that lacks its title, [GET /api/projects?tag=Web]
    answers 500 instead of returning that record. *)
Lemma list_projects_by_tag_counterexample :
  available fresh_world empty_store
  /\ (exists rs, (GET_api_projects (Some "") fresh_world).1 = Http200 rs
                 /\ length rs = 3)
  /\ selected (Some "")
       (records (seeded_store empty_store (utcnow fresh_world)) "project") = []
  /\ ~ lists_exactly (Some "") fresh_world empty_store
  /\ available poisoned_world poisoned_store
  /\ has_tag "Web" untitled = true
  /\ untitled ∈ records poisoned_store "project"
  /\ (GET_api_projects (Some "Web") poisoned_world).1 = Http500
  /\ ~ lists_exactly (Some "Web") poisoned_world poisoned_store.
Proof.
  assert (selected (Some "")
            (records (seeded_store empty_store (utcnow fresh_world)) "project")
          = []) as Hsel by (vm_compute; reflexivity).
  assert ((GET_api_projects (Some "Web") poisoned_world).1 = Http500) as Hweb
    by (vm_compute; reflexivity).
  split; [split; reflexivity|].
  split; [eexists; split; [vm_compute; reflexivity | reflexivity]|].
  split; [exact Hsel|].
  split.
  { intros (rs & Hget & Hall).
    rewrite Hsel in Hall. inversion Hall; subst.
    vm_compute in Hget. discriminate. }
  split; [split; reflexivity|].
  split; [vm_compute; reflexivity|].
  split; [right; left|].
  split; [exact Hweb|].
  intros (rs & Hget & _). rewrite Hweb in Hget. discriminate.
Qed.

Lemma list_projects_all w st :
  available w st ->
  (list_projects (Some "") w).1
  = collect project_response (records (seeded_store st (utcnow w)) "project").
Proof.
  intros Hav. rewrite (list_projects_available _ _ st) by done.
  cbv zeta. cbn [fst]. f_equal.
  apply filter_all. intros d. apply doc_matches_empty.
Qed.

Lemma list_posts_all {parse_datetime : string -> option Z} w st :
  available w st ->
  (list_posts parse_datetime (Some "") w).1
  = collect (post_response parse_datetime)
      (records (seeded_store st (utcnow w)) "post").
Proof.
  intros Hav. rewrite (list_posts_available _ _ st) by done.
  cbv zeta. cbn [fst]. f_equal.
  apply filter_all. intros d. apply doc_matches_empty.
Qed.

Lemma serve_fst {A} (m : M A) w : (serve m w).1 = respond (m w).1.
Proof. unfold serve. by destruct (m w). Qed.

(** C8.  The empty string as [tag] gives the empty filter, which every
    record matches: [GET /api/projects?tag=] and [GET /api/posts?tag=]
    are the same computations as the requests without [tag].  On a
    reachable store they shape every record of the collection, in the
    store's order, and answer with all of them when all can be shaped,
    whether or not a record has the empty string among its tags. *)
Theorem empty_tag_is_no_tag {parse_datetime : string -> option Z} (w : World) :
  tag_filter (Some "") = tag_filter None
  /\ (forall d, doc_matches (tag_filter (Some "")) d = true)
  /\ list_projects (Some "") w = list_projects None w
  /\ list_posts parse_datetime (Some "") w = list_posts parse_datetime None w
  /\ GET_api_projects (Some "") w = GET_api_projects None w
  /\ GET_api_posts parse_datetime (Some "") w = GET_api_posts parse_datetime None w
  /\ (forall st c,
        available w st ->
        (get_documents c (tag_filter (Some "")) None w).1 = Ok (records st c))
  /\ (forall st,
        available w st ->
        let projects := records (seeded_store st (utcnow w)) "project" in
        let posts := records (seeded_store st (utcnow w)) "post" in
        (list_projects (Some "") w).1 = collect project_response projects
        /\ (list_posts parse_datetime (Some "") w).1
           = collect (post_response parse_datetime) posts
        /\ (Forall normalizable projects ->
            exists rs,
              (GET_api_projects (Some "") w).1 = Http200 rs
              /\ Forall2 (fun d r => project_response d = Ok r) projects rs)
        /\ (Forall (post_normalizable parse_datetime) posts ->
            exists rs,
              (GET_api_posts parse_datetime (Some "") w).1 = Http200 rs
              /\ Forall2 (fun d r => post_response parse_datetime d = Ok r)
                   posts rs)).
Proof.
  split; [reflexivity|]. split; [intros d; apply doc_matches_empty|].
  do 4 (split; [reflexivity|]).
  split.
  - intros st c Hav. rewrite (get_documents_available _ st) by done.
    simpl. f_equal. apply filter_all. intros d. apply doc_matches_empty.
  - intros st Hav. cbv zeta.
    split; [by apply list_projects_all|]. split; [by apply list_posts_all|].
    split; intros Hall.
    + destruct (collect_all_ok project_response _ Hall) as (rs & Hrs & H2).
      exists rs. split; [|done].
      unfold GET_api_projects.
      by rewrite serve_fst, (list_projects_all w st Hav), Hrs.
    + destruct (collect_all_ok (post_response parse_datetime) _ Hall)
        as (rs & Hrs & H2).
      exists rs. split; [|done].
      unfold GET_api_posts.
      by rewrite serve_fst, (list_posts_all w st Hav), Hrs.
Qed.

Lemma empty_tag_is_no_tag_witness :
  exists rs,
    (GET_api_projects (Some "") fresh_world).1 = Http200 rs
    /\ Forall2 (fun d r => project_response d = Ok r) seed_projects rs
    /\ List.filter (has_tag "") seed_projects = [].
Proof.
  destruct (empty_tag_is_no_tag (parse_datetime := sample_parse_datetime) fresh_world)
    as (_ & _ & _ & _ & _ & _ & _ & H).
  destruct (H empty_store (conj eq_refl eq_refl)) as (_ & _ & Hprojects & _).
  destruct Hprojects as (rs & Hget & Hall).
  - rewrite seeded_store_projects. apply seed_projects_normalizable.
  - exists rs. split; [exact Hget|]. split; [exact Hall|].
    vm_compute. reflexivity.
Defined.

(** ** Posts by tag *)

(** Posts are listed the way projects are.  On a reachable store, for
    every non-empty [X] (and likewise without [tag], for all posts): when
    every stored post that the tag query matches can be shaped,
    [GET /api/posts?tag=X] answers with exactly the stored posts that
    have [X] among their tags, in the store's order. *)
Theorem list_posts_by_tag {parse_datetime : string -> option Z}
    (tag : option string) (w : World) (st : Store) :
  available w st ->
  tag <> Some "" ->
  Forall (post_normalizable parse_datetime) (matched tag (records st "post")) ->
  lists_posts_exactly parse_datetime tag w st.
Proof.
  intros Hav Htag Hnorm. unfold lists_posts_exactly, GET_api_posts, serve.
  rewrite (list_posts_available _ _ st) by done. cbv zeta. cbn [fst].
  set (stored := records (seeded_store st (utcnow w)) "post").
  fold (matched tag stored).
  assert (Forall (post_normalizable parse_datetime) (matched tag stored)) as Hstored.
  { apply (matched_after_seed _ _ _ _ _ (seed_posts (utcnow w)));
      [apply seeded_store_posts | apply seed_posts_normalizable | done]. }
  destruct (collect_all_ok (post_response parse_datetime) (matched tag stored) Hstored)
    as (rs & -> & Hall).
  exists rs. split; [done|].
  rewrite <- (matched_is_selected (post_response parse_datetime)); [done| |done|done].
  intros d r X Hr. apply (post_tag_query_is_membership (parse_datetime := parse_datetime)).
  by exists r.
Qed.

Lemma list_posts_by_tag_witness :
  lists_posts_exactly sample_parse_datetime (Some "perf") fresh_world empty_store
  /\ lists_posts_exactly sample_parse_datetime None fresh_world empty_store.
Proof.
  split; apply list_posts_by_tag; try discriminate;
    try (split; reflexivity); constructor.
Defined.

(** ** Fetching the seeded records *)

(** Seeding and lookup compose: on a reachable store whose [project]
    collection is empty, every example project can be fetched by its
    slug right away (the three slugs do not collide), and on one whose
    [post] collection is empty the example post can, with its title,
    slug, excerpt, content and tags. *)
Theorem seeded_records_are_fetched {parse_datetime : string -> option Z}
    (w : World) (st : Store) :
  available w st ->
  (records st "project" = [] ->
     forall q, q ∈ project_examples ->
               (get_project (p_slug q) w).1 = Ok (response_of_project q))
  /\ (records st "post" = [] ->
        forall b, b ∈ post_examples (utcnow w) ->
          exists r,
            (get_post parse_datetime (b_slug b) w).1 = Ok r
            /\ po_title r = b_title b /\ po_slug r = b_slug b
            /\ po_excerpt r = b_excerpt b /\ po_content r = b_content b
            /\ po_tags r = b_tags b).
Proof.
  intros Hav. split; intros Hempty x Hx.
  - rewrite (get_project_available _ _ st) by done. cbv zeta. cbn [fst].
    rewrite seeded_store_projects.
    apply is_empty_records in Hempty. rewrite Hempty.
    rewrite (elem_of_project_examples _ Hx). apply project_response_dict.
  - exists (response_of_post x). split; [|done].
    rewrite (get_post_available _ _ st) by done. cbv zeta. cbn [fst].
    rewrite seeded_store_posts.
    apply is_empty_records in Hempty. rewrite Hempty.
    destruct (elem_of_post_examples _ _ Hx) as [Htake _].
    rewrite Htake. apply post_response_dict.
Qed.

Lemma seeded_records_are_fetched_witness :
  Forall (fun q => (get_project (p_slug q) fresh_world).1
                   = Ok (response_of_project q)) project_examples.
Proof.
  destruct (seeded_records_are_fetched (parse_datetime := sample_parse_datetime)
              fresh_world empty_store) as [H _].
  - split; reflexivity.
  - apply Forall_forall. intros q Hq. apply H; [reflexivity | exact Hq].
Defined.

(** A [featured] stored as text is read the way pydantic reads it. *)
Example featured_text_is_coerced :
  exists r, project_response (<[ "featured" := VStr "True" ]> sparse_project) = Ok r
            /\ pr_featured r = true.
Proof. eexists. split; vm_compute; reflexivity. Qed.
